(** * Alien prescription simulation: the rule evaluation engine

    A shallow embedding of [evaluateTask] and of the correctness grading
    of [finalizeAnswer] from [script.js], with the properties of the
    evaluation engine stated and proved over it.

    Modelling choices:
    - a fact (symptom, intermediate result or medicine) is a [string];
    - JavaScript arrays ([groups], a group, [observed], [rules]) are lists;
    - the JavaScript [Set]s ([derived], [currentSet], [bestSet]) are
      [gset string]: the code only tests membership, adds, deletes, copies and
      counts them;
    - the objects [finalScores] and [usedCombos], used as dictionaries, are
      [gmap string _]; fact names are ordinary property names;
    - the [while (changed)] loop takes a budget of passes;
      [forward_chain_enough] shows that [length rules + 1] passes always
      suffice, so that [evaluateTask] is a total function. *)

From Stdlib Require Import Arith Lia List.
From stdpp Require Import base option list gmap sets strings.

Local Open Scope string_scope.
Local Open Scope nat_scope.

(** ** Data model *)

Abbreviation Fact := string (only parsing).

(** [{ groups: [[..], ..], result: '..', intermediate: bool }] *)
Record Rule : Type := mkRule {
  groups : list (list Fact);
  result : Fact;
  intermediate : bool
}.

(** [{ id: n, rules: [..], observed: [..] }] *)
Record Task : Type := mkTask {
  task_id : nat;
  rules : list Rule;
  observed : list Fact
}.

(** The value returned by [evaluateTask]: [{ derived, finalScores, usedCombos }]. *)
Record Evaluation : Type := mkEvaluation {
  derived : gset Fact;
  finalScores : gmap Fact nat;
  usedCombos : gmap Fact (gset Fact)
}.

(** ** The dataset *)

(** Every task of [tasks] carries the same rule literal. *)
Definition treatment_plan : list Rule :=
  [ mkRule [["shortness of breath"; "seizures"; "brain fog"; "neck pain"]]
      "broken bones" true;
    mkRule [["brain fog"; "slurred speech"];
            ["slurred speech"; "seizures"; "sleepy"];
            ["bloating"]]
      "fast heart rate" true;
    mkRule [["seizures"; "shortness of breath"; "brain fog"; "confusion"]]
      "low blood pressure" true;
    mkRule [["shortness of breath"; "sleepy"; "aching joints"]]
      "stimulants" false;
    mkRule [["migraine"]; ["thirsty"]; ["bloating"]; ["low blood pressure"]]
      "tranquilizers" false;
    mkRule [["shortness of breath"; "aching joints"; "jaundice"; "confusion"]]
      "antibiotics" false;
    mkRule [["broken bones"; "seizures"]; ["thirsty"];
            ["vomiting"; "aching joints"]]
      "vitamins" false;
    mkRule [["neck pain"; "rash"; "jaundice"]; ["slurred speech"; "rash"]]
      "laxatives" false ].

Definition task1 : Task :=
  mkTask 1 treatment_plan
    ["thirsty"; "vomiting"; "bloating"; "migraine"; "brain fog"].
Definition task2 : Task :=
  mkTask 2 treatment_plan
    ["seizures"; "thirsty"; "vomiting"; "bloating"; "neck pain"].
Definition task3 : Task :=
  mkTask 3 treatment_plan
    ["shortness of breath"; "sleepy"; "jaundice"; "rash"].
Definition task4 : Task :=
  mkTask 4 treatment_plan
    ["seizures"; "slurred speech"; "sleepy"; "bloating"].

Definition tasks : list Task := [task1; task2; task3; task4].

Definition finalMedicines : list Fact :=
  ["stimulants"; "tranquilizers"; "antibiotics"; "vitamins"; "laxatives"].
Definition intermediateSymptoms : list Fact :=
  ["broken bones"; "fast heart rate"; "low blood pressure"].

(** ** Forward chaining *)

(** [observed.includes(sym) || derived.has(sym)] *)
Definition available (observed : list Fact) (derived : gset Fact)
    (sym : Fact) : bool :=
  bool_decide (sym ∈ observed) || bool_decide (sym ∈ derived).

(** [rule.groups.every(group => group.some(sym => ...))] *)
Definition satisfied (observed : list Fact) (derived : gset Fact)
    (rule : Rule) : bool :=
  forallb (fun group => existsb (available observed derived) group)
          (groups rule).

(** The body of [for (const rule of task.rules)] inside the [while] loop; the
    state is the pair of [derived] and [changed]. *)
Definition chain_step (observed : list Fact)
    (st : gset Fact * bool) (rule : Rule) : gset Fact * bool :=
  if intermediate rule && negb (bool_decide (result rule ∈ st.1)) then
    if satisfied observed st.1 rule
    then ({[ result rule ]} ∪ st.1, true)
    else st
  else st.

(** One pass of the [while] body: [changed = false] and then the [for] loop. *)
Definition chain_pass (rules : list Rule) (observed : list Fact)
    (derived : gset Fact) : gset Fact * bool :=
  foldl (chain_step observed) (derived, false) rules.

(** [while (changed) { ... }], with a budget of passes; [None] when the budget
    runs out before a pass leaves [changed] false. *)
Fixpoint forward_chain (fuel : nat) (rules : list Rule) (observed : list Fact)
    (derived : gset Fact) : option (gset Fact) :=
  match fuel with
  | O => None
  | S fuel' =>
      let st := chain_pass rules observed derived in
      if st.2 then forward_chain fuel' rules observed st.1 else Some st.1
  end.

(** ** Scoring of the final medicines *)

(** The loop over [rule.groups] that fills [satisfiedGroups]; [None] stands
    for [allSatisfied = false] (the loop breaks at the first group without an
    available symptom). *)
Fixpoint satisfied_groups (observed : list Fact) (derived : gset Fact)
    (groups : list (list Fact)) : option (list (list Fact)) :=
  match groups with
  | [] => Some []
  | group :: rest =>
      let availableSyms := List.filter (available observed derived) group in
      if length availableSyms =? 0 then None
      else cons availableSyms <$> satisfied_groups observed derived rest
  end.

(** The variables shared by the calls of [explore]: the set [currentSet] that
    every call mutates, and the captured [bestCount] and [bestSet]. *)
Record Explore : Type := mkExplore {
  currentSet : gset Fact;
  bestCount : nat;
  bestSet : gset Fact
}.

(** [Array.from(currentSet).filter(sym => observed.includes(sym)).length] *)
Definition count_observed (observed : list Fact) (s : gset Fact) : nat :=
  length (List.filter (fun sym => bool_decide (sym ∈ observed)) (elements s)).

(** The branch [idx >= satisfiedGroups.length] of [explore]. *)
Definition explore_leaf (observed : list Fact) (st : Explore) : Explore :=
  let count := count_observed observed (currentSet st) in
  if bestCount st <? count
  then mkExplore (currentSet st) count (currentSet st)
  else st.

(** [explore(idx, currentSet)]; the argument [todo] is the part of
    [satisfiedGroups] from index [idx] on. *)
Fixpoint explore (observed : list Fact) (todo : list (list Fact))
    (st : Explore) : Explore :=
  match todo with
  | [] => explore_leaf observed st
  | syms :: todo' =>
      foldl (fun st sym =>
               let st1 := mkExplore ({[ sym ]} ∪ currentSet st)
                                    (bestCount st) (bestSet st) in
               let st2 := explore observed todo' st1 in
               mkExplore (currentSet st2 ∖ {[ sym ]})
                         (bestCount st2) (bestSet st2))
            st syms
  end.

(** [let bestCount = 0; let bestSet = new Set(); explore(0, new Set());] *)
Definition explore_all (observed : list Fact)
    (satisfiedGroups : list (list Fact)) : Explore :=
  explore observed satisfiedGroups (mkExplore ∅ 0 ∅).

(** [object[key] = value] on an object created by [{}] and used as a
    dictionary. The own property [key] is created or overwritten, except for
    the key [__proto__]: that name is the accessor inherited from
    [Object.prototype], and an assignment to it creates no own property (a
    number is ignored, an object becomes the prototype of the dictionary).
    The maps of the model hold the own properties. Once a [Set] has become
    the prototype of [usedCombos], the accessor [size] that it inherits
    stands in the way of an assignment to the key [size]; the model does not
    follow the prototype, and the theorems that state the presence of a key
    assume that no final rule has the result [__proto__]
    ([no_proto_result]). *)
Definition assign {V} (key : Fact) (value : V) (object : gmap Fact V)
    : gmap Fact V :=
  if String.eqb key "__proto__" then object else <[ key := value ]> object.

(** The body of the second [for (const rule of task.rules)]; the state is the
    pair of [finalScores] and [usedCombos]. *)
Definition score_step (observed : list Fact) (derived : gset Fact)
    (st : gmap Fact nat * gmap Fact (gset Fact)) (rule : Rule)
    : gmap Fact nat * gmap Fact (gset Fact) :=
  if intermediate rule then st
  else
    match satisfied_groups observed derived (groups rule) with
    | None => st
    | Some satisfiedGroups =>
        let e := explore_all observed satisfiedGroups in
        (assign (result rule) (bestCount e) st.1,
         assign (result rule) (bestSet e) st.2)
    end.

Definition score_rules (rules : list Rule) (observed : list Fact)
    (derived : gset Fact) : gmap Fact nat * gmap Fact (gset Fact) :=
  foldl (score_step observed derived) (∅, ∅) rules.


(** The forward-chaining part of [evaluateTask] on its own, run with
    [length rules + 1] passes, which is always enough: see
    [forward_chain_enough]. *)
Definition deriveClosure (rules : list Rule) (observed : list Fact)
    : gset Fact :=
  default ∅ (forward_chain (S (length rules)) rules observed ∅).

Definition evaluateTask (task : Task) : Evaluation :=
  let derived := deriveClosure (rules task) (observed task) in
  let scores := score_rules (rules task) (observed task) derived in
  mkEvaluation derived scores.1 scores.2.

(** ** Grading of an answer *)

Inductive Correctness : Type := best | suboptimal | wrong.

(** [Math.max(...xs)]: [None] stands for [-Infinity], the value on no
    argument. *)
Definition Math_max (xs : list nat) : option nat :=
  foldr (fun x acc => match acc with
                      | None => Some x
                      | Some y => Some (Nat.max x y)
                      end) None xs.

(** [Object.values(o)] and [Object.keys(o)] *)
Definition Object_values (o : gmap Fact nat) : list nat := (map_to_list o).*2.
Definition Object_keys (o : gmap Fact nat) : list Fact := (map_to_list o).*1.

(** [evalScores[m] === bestScore] *)
Definition is_best_score (evalScores : gmap Fact nat) (bestScore : option nat)
    (m : Fact) : bool :=
  match evalScores !! m, bestScore with
  | Some v, Some b => v =? b
  | _, _ => false
  end.

(** The truth value of a string or [null] in a condition: [null] and the
    empty string are false. *)
Definition truthy (a : option Fact) : bool :=
  match a with
  | None => false
  | Some s => negb (String.eqb s "")
  end.

(** The part of [finalizeAnswer] under [// Compute correctness]. *)
Definition correctness (evalScores : gmap Fact nat)
    (finalAnswer : option Fact) : Correctness :=
  match finalAnswer with
  | Some a =>
      if truthy finalAnswer then
        let bestScore := Math_max (Object_values evalScores) in
        let bestMeds :=
          List.filter (is_best_score evalScores bestScore)
                      (Object_keys evalScores) in
        if bool_decide (a ∈ bestMeds) then best
        else
          match evalScores !! a with
          | Some v => if 0 <? v then suboptimal else wrong
          | None => wrong
          end
      else wrong
  | None => wrong
  end.


(** ** Auxiliary definitions on the engine *)

(** The results of the intermediate rules. *)
Definition intermediate_results (rules : list Rule) : gset Fact :=
  list_to_set (result <$> List.filter intermediate rules).

(** The available facts of every group, in group order: the value of
    [satisfiedGroups] for a rule whose groups are all satisfied. *)
Definition available_groups (observed : list Fact) (derived : gset Fact)
    (groups : list (list Fact)) : list (list Fact) :=
  List.map (List.filter (available observed derived)) groups.

(** The exploration run for a rule that passes the [allSatisfied] test. *)
Definition explore_rule (observed : list Fact) (derived : gset Fact)
    (rule : Rule) : Explore :=
  explore_all observed (available_groups observed derived (groups rule)).

(** A rule that writes into [finalScores] and [usedCombos] under key [c]. *)
Definition writes (observed : list Fact) (derived : gset Fact) (c : Fact)
    (rule : Rule) : bool :=
  negb (intermediate rule) && satisfied observed derived rule
  && negb (String.eqb (result rule) "__proto__")
  && String.eqb (result rule) c.

(** The last rule, in rule order, that writes under key [c]. *)
Definition winner (observed : list Fact) (derived : gset Fact) (c : Fact)
    (rules : list Rule) : option Rule :=
  List.find (writes observed derived c) (rev rules).

(** Both sets of the exploration state stay inside [pool], the recorded count
    is the count of the recorded set, and the recorded set is empty as long
    as the recorded count is 0. *)
Definition inside (observed : list Fact) (pool : gset Fact) (st : Explore)
    : Prop :=
  currentSet st ⊆ pool ∧ bestSet st ⊆ pool ∧
  count_observed observed (bestSet st) = bestCount st ∧
  (bestCount st = 0 → bestSet st = ∅).

(** What the leaf of [explore] does to the pair of [bestCount] and
    [bestSet] when it is reached with [currentSet = s]. *)
Definition keep_best (observed : list Fact) (acc : nat * gset Fact)
    (s : gset Fact) : nat * gset Fact :=
  if acc.1 <? count_observed observed s
  then (count_observed observed s, s)
  else acc.

(** The groups still to explore share no fact with each other nor with the
    facts picked so far. *)
Fixpoint separate (todo : list (list Fact)) (cur : gset Fact) : Prop :=
  match todo with
  | [] => True
  | group :: rest =>
      (∀ sym, sym ∈ group →
              (sym ∉ cur) ∧ ∀ other, other ∈ rest → sym ∉ other)
      ∧ separate rest cur
  end.

(** The pair of [bestCount] and [bestSet] after the leaf has been reached
    with every combination of [combos] joined with [cur], in order. *)
Definition best_over (observed : list Fact) (cur : gset Fact)
    (acc : nat * gset Fact) (combos : list (list Fact)) : nat * gset Fact :=
  foldl (fun acc picks => keep_best observed acc (list_to_set picks ∪ cur))
        acc combos.

#[global] Instance Rule_eq_dec : EqDecision Rule.
Proof. solve_decision. Defined.

(** ** The notions of the specification *)

(** A rule holds under a predicate on facts when every group has a fact that
    satisfies the predicate (groups are ANDed, the facts of a group ORed). *)
Definition holds (P : Fact -> Prop) (rule : Rule) : Prop :=
  ∀ group, group ∈ groups rule → ∃ sym, sym ∈ group ∧ P sym.

(** The facts that hold in an evaluation state: observed or derived. *)
Definition known (observed : list Fact) (derived : gset Fact)
    (sym : Fact) : Prop :=
  sym ∈ observed ∨ sym ∈ derived.

(** A set of facts is closed when it has the result of every intermediate
    rule that holds. *)
Definition closed (rules : list Rule) (P : Fact -> Prop) (X : gset Fact)
    : Prop :=
  ∀ rule, rule ∈ rules → intermediate rule = true → holds P rule →
          result rule ∈ X.


(** The Cartesian product of the groups, in the order in which [explore]
    visits it: groups in order, and the facts of a group in order. *)
Fixpoint combinations (groups : list (list Fact)) : list (list Fact) :=
  match groups with
  | [] => [[]]
  | group :: rest =>
      flat_map (fun sym => List.map (cons sym) (combinations rest)) group
  end.

(** No fact occurs in two groups. *)
Fixpoint groups_disjoint (groups : list (list Fact)) : bool :=
  match groups with
  | [] => true
  | group :: rest =>
      forallb (fun sym =>
                 forallb (fun other => negb (bool_decide (sym ∈ other))) rest)
              group
      && groups_disjoint rest
  end.

(** The score of a combination: the number of distinct picked facts that are
    members of the original observed set. *)
Definition spec_score (observed : list Fact) (picks : list Fact) : nat :=
  length (remove_dups
            (List.filter (fun sym => bool_decide (sym ∈ observed)) picks)).

(** The maximum of the score over a list of combinations. *)
Definition spec_best_score (observed : list Fact)
    (combos : list (list Fact)) : nat :=
  max_list (spec_score observed <$> combos).

(** The first combination, in the order of the list, whose score attains the
    maximum. *)
Definition spec_first_best (observed : list Fact)
    (combos : list (list Fact)) : option (list Fact) :=
  List.find (fun picks =>
               spec_score observed picks =? spec_best_score observed combos)
            combos.

(** No final rule has the result [__proto__], the one key that an assignment
    to a dictionary does not create. *)
Definition no_proto_result (rules : list Rule) : Prop :=
  Forall (fun rule => intermediate rule = false → result rule ≠ "__proto__")
         rules.

(** [rule] occurs in [rules], and no rule after that occurrence is a final
    rule with the same result all of whose groups have a fact that holds: a
    final rule with this property whose own groups are satisfied is the last
    rule that writes the entry of its result. *)
Definition last_satisfied (P : Fact -> Prop) (rules : list Rule) (rule : Rule)
    : Prop :=
  ∃ before after,
    rules = (before ++ rule :: after)%list
    ∧ Forall (fun later => ¬ (intermediate later = false
                              ∧ result later = result rule
                              ∧ holds P later)) after.

(** On the four tasks of the dataset every entry of [finalScores] is the
    maximal score of the specification, also for [laxatives], whose groups
    share [rash]: there the shared fact comes last in the second of two
    groups, and no combination is explored after its deletion. *)
Definition score_is_maximum (task : Task) (rule : Rule) : bool :=
  intermediate rule
  || negb (satisfied (observed task) (derived (evaluateTask task)) rule)
  || bool_decide
       (finalScores (evaluateTask task) !! result rule
        = Some (spec_best_score (observed task)
                  (combinations
                     (available_groups (observed task)
                        (derived (evaluateTask task)) (groups rule))))).

(** ** Rules and tasks used as examples *)

Definition task_no_groups : Task :=
  mkTask 0 [ mkRule [] "x" true; mkRule [] "m" false ] [].

(** Two final rules with the same result: the later one overwrites. *)
Definition task_same_result : Task :=
  mkTask 0 [ mkRule [["a"]] "m" false;
             mkRule [["a"]; ["b"]] "m" false ]
         ["a"; "b"].

Definition tranquilizers_rule : Rule :=
  mkRule [["migraine"]; ["thirsty"]; ["bloating"]; ["low blood pressure"]]
         "tranquilizers" false.

(** A final rule that only a derived fact satisfies. *)
Definition task_derived_only : Task :=
  mkTask 0 [ mkRule [["a"]] "x" true; mkRule [["x"]] "m" false ] ["a"].

Definition vitamins_rule : Rule :=
  mkRule [["broken bones"; "seizures"]; ["thirsty"];
          ["vomiting"; "aching joints"]]
         "vitamins" false.

(** The rules of a task in which a second final rule for [m] is satisfied
    only through the derived fact [b]. *)
Definition rules_overwrite : list Rule :=
  [ mkRule [["y"]] "b" true;
    mkRule [["a"]] "m" false;
    mkRule [["b"]] "m" false ].

Definition laxatives_rule : Rule :=
  mkRule [["neck pain"; "rash"; "jaundice"]; ["slurred speech"; "rash"]]
         "laxatives" false.

(** The treatment plan with two observed facts of the rule for [laxatives];
    [rash], which occurs in both groups of that rule, is not among them. *)
Definition task_laxatives : Task :=
  mkTask 5 treatment_plan ["neck pain"; "slurred speech"].


(** The observed facts of task 1, and the same with [seizures] in addition. *)
Definition observed1 : list Fact := observed task1.
Definition observed1_seizures : list Fact := observed task1 ++ ["seizures"].

(** [a] is derived from the observed [b]; the final rule for [m] has [a] in
    both groups. *)
Definition task_shared_fact : Task :=
  mkTask 0 [ mkRule [["b"]] "a" true;
             mkRule [["a"]; ["a"; "b"]] "m" false ]
         ["b"].

(** * The rest of the script: the shuffle and the AI advice *)

(** ** The random source *)

(** [Math.random] is an external source of numbers. It is modelled by the
    stream of the natural numbers that decide its next results: the call
    [Math.floor(Math.random() * n)] takes the head [k] of the stream and
    yields [k mod n], which ranges over [0 .. n-1] as the source does, and
    yields 0 when [n] is 0. *)
Definition Random : Type := nat -> nat.

(** [Math.floor(Math.random() * n)], with the rest of the source. *)
Definition floor_random (g : Random) (n : nat) : nat * Random :=
  (if n =? 0 then 0 else g 0 mod n, fun k => g (S k)).

(** ** [shuffle] *)

(** [[arr[i], arr[j]] = [arr[j], arr[i]]]. Both indices are inside the array
    wherever [shuffle] swaps ([swap_in_range]); elsewhere the model leaves
    the array as it is. *)
Definition swap {A} (arr : list A) (i j : nat) : list A :=
  match arr !! i, arr !! j with
  | Some x, Some y => <[ j := x ]> (<[ i := y ]> arr)
  | _, _ => arr
  end.

(** [for (let i = ...; i > 0; i--) { const j = ...; swap }], from index [i]. *)
Fixpoint shuffle_loop {A} (i : nat) (arr : list A) (g : Random)
    : list A * Random :=
  match i with
  | O => (arr, g)
  | S i' =>
      let jg := floor_random g (i + 1) in
      shuffle_loop i' (swap arr i jg.1) jg.2
  end.

(** [shuffle(array)]: the loop runs on a copy, from the last index. *)
Definition shuffle {A} (array : list A) (g : Random) : list A * Random :=
  shuffle_loop (length array - 1) array g.

(** ** [showAIBox]: the recommendation and its reason *)

(** [Object.keys(scores).filter(m => scores[m] === bestScore)] with
    [bestScore = Math.max(...Object.values(scores))]. The keys come in the
    order of the map; the properties below do not depend on that order. *)
Definition best_meds (scores : gmap Fact nat) : list Fact :=
  List.filter (is_best_score scores (Math_max (Object_values scores)))
              (Object_keys scores).

(** [bestMeds[Math.floor(Math.random() * bestMeds.length)]]; [None] is
    [undefined], the value on an empty [bestMeds]. *)
Definition recommendation (scores : gmap Fact nat) (g : Random)
    : option Fact * Random :=
  let bestMeds := best_meds scores in
  let kg := floor_random g (length bestMeds) in
  (bestMeds !! kg.1, kg.2).

(** [task.rules.find(r => !r.intermediate && r.result === aiRecommendation)] *)
Definition find_rule (rules : list Rule) (aiRecommendation : option Fact)
    : option Rule :=
  match aiRecommendation with
  | None => None
  | Some m =>
      List.find (fun r => negb (intermediate r) && String.eqb (result r) m)
                rules
  end.

(** The two nested loops over [rule.groups] that look for a reason: in a
    group the first symptom that passes the test [p] is taken and ends the
    inner loop; the outer loop ends as soon as [reasonSymptom] is truthy. *)
Fixpoint scan_groups (p : Fact -> bool) (groups : list (list Fact))
    (reasonSymptom : option Fact) : option Fact :=
  match groups with
  | [] => reasonSymptom
  | group :: rest =>
      let reasonSymptom' :=
        match List.find p group with
        | Some sym => Some sym
        | None => reasonSymptom
        end in
      if truthy reasonSymptom' then reasonSymptom'
      else scan_groups p rest reasonSymptom'
  end.

(** The tests of the two passes. *)
Definition derived_intermediate (derived : gset Fact) (sym : Fact) : bool :=
  bool_decide (sym ∈ intermediateSymptoms) && bool_decide (sym ∈ derived).
Definition is_observed (observed : list Fact) (sym : Fact) : bool :=
  bool_decide (sym ∈ observed).

(** [reasonSymptom] at the point where the message is built: a derived
    intermediate symptom of the rule if there is one, else an observed
    symptom of the rule. *)
Definition reason_symptom (task : Task) (evaluation : Evaluation)
    (aiRecommendation : option Fact) : option Fact :=
  match find_rule (rules task) aiRecommendation with
  | None => None
  | Some rule =>
      let first :=
        scan_groups (derived_intermediate (derived evaluation))
                    (groups rule) None in
      if truthy first then first
      else scan_groups (is_observed (observed task)) (groups rule) first
  end.

(** A conclusion of maximal score. *)
Definition top_scorer (scores : gmap Fact nat) (m : Fact) : Prop :=
  ∃ v, scores !! m = Some v ∧ ∀ k w, scores !! k = Some w → w ≤ v.

(** The final rules of a rule list have pairwise distinct results. *)
Definition final_results_distinct (rules : list Rule) : Prop :=
  NoDup (result <$> List.filter (fun rule => negb (intermediate rule)) rules).

(** * Lemmas on the engine *)

(** ** Forward chaining: lemmas *)

Lemma available_known observed derived sym :
  available observed derived sym = true ↔ known observed derived sym.
Proof.
  unfold available, known.
  rewrite orb_true_iff, !bool_decide_eq_true. tauto.
Qed.

Lemma satisfied_holds observed derived rule :
  satisfied observed derived rule = true ↔
  holds (known observed derived) rule.
Proof.
  unfold satisfied, holds. rewrite forallb_forall. split.
  - intros H group Hin. apply list_elem_of_In in Hin.
    specialize (H group Hin). apply existsb_exists in H as (sym & Hs & Ha).
    exists sym. split; [by apply list_elem_of_In|by apply available_known].
  - intros H group Hin. apply list_elem_of_In in Hin.
    destruct (H group Hin) as (sym & Hs & Ha).
    apply existsb_exists. exists sym.
    split; [by apply list_elem_of_In|by apply available_known].
Qed.

Lemma holds_mono (P Q : Fact -> Prop) rule :
  (∀ sym, P sym → Q sym) → holds P rule → holds Q rule.
Proof.
  intros HPQ H group Hin. destruct (H group Hin) as (sym & ? & ?). eauto.
Qed.

Lemma chain_step_cases observed d c rule :
  (chain_step observed (d, c) rule = (d, c) ∧
   (intermediate rule = true → holds (known observed d) rule →
    result rule ∈ d)) ∨
  (chain_step observed (d, c) rule = ({[ result rule ]} ∪ d, true) ∧
   intermediate rule = true ∧ (result rule ∉ d) ∧
   holds (known observed d) rule).
Proof.
  unfold chain_step; simpl.
  destruct (intermediate rule); simpl; [|left; split; [done|discriminate]].
  case_bool_decide as Hin; simpl; [left; done|].
  destruct (satisfied observed d rule) eqn:Hsat.
  - right. by rewrite <- satisfied_holds.
  - left. split; [done|]. intros _ Hh. apply satisfied_holds in Hh. congruence.
Qed.

Section chain.
Context (observed : list Fact).

Lemma chain_fold_grows rs d c :
  d ⊆ (foldl (chain_step observed) (d, c) rs).1.
Proof.
  revert d c. induction rs as [|r rs IH]; intros d c; simpl; [done|].
  destruct (chain_step_cases observed d c r) as [[-> _]|[-> _]].
  - apply IH.
  - etrans; [|apply IH]. set_solver.
Qed.

Lemma chain_fold_flag rs d :
  (foldl (chain_step observed) (d, true) rs).2 = true.
Proof.
  revert d. induction rs as [|r rs IH]; intros d; simpl; [done|].
  destruct (chain_step_cases observed d true r) as [[-> _]|[-> _]];
    apply IH.
Qed.

Lemma chain_fold_results rs d c :
  (foldl (chain_step observed) (d, c) rs).1 ⊆ d ∪ intermediate_results rs.
Proof.
  revert d c. induction rs as [|r rs IH]; intros d c; simpl; [set_solver|].
  unfold intermediate_results. simpl.
  destruct (chain_step_cases observed d c r) as [[-> _]|[-> (Hi & _)]].
  - etrans; [apply IH|]. unfold intermediate_results.
    destruct (intermediate r); simpl; set_solver.
  - etrans; [apply IH|]. unfold intermediate_results.
    rewrite Hi. simpl. set_solver.
Qed.

(** A pass that leaves [changed] false has changed nothing, and no rule of
    the pass could fire. *)
Lemma chain_fold_stable rs d :
  (foldl (chain_step observed) (d, false) rs).2 = false →
  (foldl (chain_step observed) (d, false) rs).1 = d ∧
  closed rs (known observed d) d.
Proof.
  revert d. induction rs as [|r rs IH]; intros d; simpl.
  - intros _. split; [done|]. intros rule Hin. by apply elem_of_nil in Hin.
  - destruct (chain_step_cases observed d false r) as [[-> Hno]|[-> _]].
    + intros H. destruct (IH d H) as [Heq Hcl]. split; [done|].
      intros rule Hin. apply elem_of_cons in Hin as [->|Hin]; [done|].
      by apply Hcl.
    + rewrite chain_fold_flag. discriminate.
Qed.

(** A pass that sets [changed] has added a fact. *)
Lemma chain_fold_strict rs d :
  (foldl (chain_step observed) (d, false) rs).2 = true →
  size d < size (foldl (chain_step observed) (d, false) rs).1.
Proof.
  revert d. induction rs as [|r rs IH]; intros d; simpl; [discriminate|].
  destruct (chain_step_cases observed d false r)
    as [[-> _]|[-> (_ & Hnew & _)]].
  - apply IH.
  - intros _. eapply Nat.lt_le_trans; [|apply subseteq_size; apply chain_fold_grows].
    rewrite size_union by set_solver. rewrite size_singleton. lia.
Qed.

(** Every fact added by a pass lies in any closed set that contains the
    facts the pass started from. *)
Lemma chain_fold_least (P : Fact -> Prop) (X : gset Fact) rs d c :
  (∀ sym, sym ∈ observed → P sym) → (∀ sym, sym ∈ X → P sym) →
  closed rs P X → d ⊆ X →
  (foldl (chain_step observed) (d, c) rs).1 ⊆ X.
Proof.
  intros HobsP HXP. revert d c.
  induction rs as [|r rs IH]; intros d c Hcl Hd; simpl; [done|].
  assert (closed rs P X) as Hcl'.
  { intros rule Hin. apply Hcl. by apply elem_of_cons; right. }
  destruct (chain_step_cases observed d c r) as [[-> _]|[-> (Hi & _ & Hh)]].
  - by apply IH.
  - apply IH; [done|]. apply union_subseteq. split; [|done].
    apply singleton_subseteq_l. apply Hcl; [by left|done|].
    eapply holds_mono; [|exact Hh]. intros sym [?|?]; auto.
Qed.
End chain.

Lemma size_list_to_set_length (l : list Fact) :
  size (list_to_set l : gset Fact) ≤ length l.
Proof.
  induction l as [|x l IH].
  - by rewrite list_to_set_nil, size_empty.
  - rewrite list_to_set_cons, size_union_alt, size_singleton. simpl.
    assert (size (list_to_set l ∖ {[x]} : gset Fact) ≤ size (list_to_set l : gset Fact))
      by (apply subseteq_size; set_solver).
    lia.
Qed.

Lemma size_intermediate_results rules :
  size (intermediate_results rules) ≤ length rules.
Proof.
  unfold intermediate_results.
  etrans; [apply size_list_to_set_length|]. rewrite length_fmap.
  apply List.filter_length_le.
Qed.

Section forward_chain.
Context (rules : list Rule) (observed : list Fact).

(** The loop stops as soon as the budget exceeds the number of results of
    intermediate rules still missing from [derived]. *)
Lemma forward_chain_stops fuel d :
  d ⊆ intermediate_results rules →
  size (intermediate_results rules) < fuel + size d →
  is_Some (forward_chain fuel rules observed d).
Proof.
  revert d. induction fuel as [|fuel IH]; intros d Hd Hlt; simpl.
  - apply subseteq_size in Hd. lia.
  - unfold chain_pass.
    destruct (foldl (chain_step observed) (d, false) rules).2 eqn:Hc;
      [|by eexists].
    apply IH.
    + etrans; [apply chain_fold_results|]. set_solver.
    + apply chain_fold_strict in Hc. lia.
Qed.

(** [length rules + 1] passes are enough from the empty set. *)
Lemma forward_chain_enough :
  forward_chain (S (length rules)) rules observed ∅
  = Some (deriveClosure rules observed).
Proof.
  unfold deriveClosure.
  destruct (forward_chain_stops (S (length rules)) ∅) as [D HD].
  - set_solver.
  - rewrite size_empty. pose proof (size_intermediate_results rules). lia.
  - by rewrite HD.
Qed.


Lemma forward_chain_grows fuel d D :
  forward_chain fuel rules observed d = Some D → d ⊆ D.
Proof.
  revert d. induction fuel as [|fuel IH]; intros d; simpl; [discriminate|].
  unfold chain_pass.
  pose proof (chain_fold_grows observed rules d false) as Hg.
  destruct (foldl (chain_step observed) (d, false) rules).2.
  - intros H. apply IH in H. set_solver.
  - intros [= <-]. done.
Qed.

(** The result is closed: no intermediate rule can add to it. *)
Lemma forward_chain_closed fuel d D :
  forward_chain fuel rules observed d = Some D →
  closed rules (known observed D) D.
Proof.
  revert d. induction fuel as [|fuel IH]; intros d; simpl; [discriminate|].
  unfold chain_pass.
  destruct (foldl (chain_step observed) (d, false) rules).2 eqn:Hc.
  - apply IH.
  - intros [= <-]. apply chain_fold_stable in Hc as [-> Hcl]. done.
Qed.

(** The result is below every closed set that contains the start. *)
Lemma forward_chain_least (P : Fact -> Prop) (X : gset Fact) fuel d D :
  (∀ sym, sym ∈ observed → P sym) → (∀ sym, sym ∈ X → P sym) →
  closed rules P X → d ⊆ X →
  forward_chain fuel rules observed d = Some D → D ⊆ X.
Proof.
  intros HobsP HXP Hcl. revert d.
  induction fuel as [|fuel IH]; intros d Hd; simpl; [discriminate|].
  unfold chain_pass.
  pose proof (chain_fold_least observed P X rules d false HobsP HXP Hcl Hd)
    as Hl.
  destruct (foldl (chain_step observed) (d, false) rules).2.
  - by apply IH.
  - by intros [= <-].
Qed.

Lemma forward_chain_results fuel d D :
  forward_chain fuel rules observed d = Some D →
  D ⊆ d ∪ intermediate_results rules.
Proof.
  revert d. induction fuel as [|fuel IH]; intros d; simpl; [discriminate|].
  unfold chain_pass.
  pose proof (chain_fold_results observed rules d false) as Hr.
  destruct (foldl (chain_step observed) (d, false) rules).2.
  - intros H. apply IH in H. set_solver.
  - by intros [= <-].
Qed.
End forward_chain.

Lemma deriveClosure_closed rules observed :
  closed rules (known observed (deriveClosure rules observed))
         (deriveClosure rules observed).
Proof. eapply forward_chain_closed, forward_chain_enough. Qed.

Lemma deriveClosure_least rules observed (P : Fact -> Prop) (X : gset Fact) :
  (∀ sym, sym ∈ observed → P sym) → (∀ sym, sym ∈ X → P sym) →
  closed rules P X → deriveClosure rules observed ⊆ X.
Proof.
  intros HobsP HXP Hcl.
  eapply (forward_chain_least rules observed P X _ ∅);
    [done|done|done| |apply forward_chain_enough].
  apply empty_subseteq.
Qed.

Lemma deriveClosure_results rules observed :
  deriveClosure rules observed ⊆ intermediate_results rules.
Proof.
  pose proof (forward_chain_results _ _ _ _ _
                (forward_chain_enough rules observed)).
  set_solver.
Qed.


(** Growing the observed facts grows the closure. *)
Lemma deriveClosure_mono rules (observed observed' : list Fact) :
  (∀ sym, sym ∈ observed → sym ∈ observed') →
  deriveClosure rules observed ⊆ deriveClosure rules observed'.
Proof.
  intros Hsub.
  apply (deriveClosure_least rules observed
           (known observed' (deriveClosure rules observed'))).
  - intros sym ?. left. auto.
  - intros sym ?. by right.
  - apply deriveClosure_closed.
Qed.

(** ** Scoring: which rule writes an entry *)

Lemma filter_length_zero {A} (p : A -> bool) (l : list A) :
  (length (List.filter p l) =? 0) = negb (existsb p l).
Proof.
  induction l as [|x l IH]; simpl; [done|].
  destruct (p x); simpl; [done|exact IH].
Qed.

Lemma satisfied_groups_spec observed derived rule :
  satisfied_groups observed derived (groups rule) =
  if satisfied observed derived rule
  then Some (available_groups observed derived (groups rule))
  else None.
Proof.
  unfold satisfied. induction (groups rule) as [|g gs IH]; simpl; [done|].
  rewrite filter_length_zero.
  destruct (existsb (available observed derived) g); simpl; [|done].
  rewrite IH.
  by destruct (forallb _ gs).
Qed.

Lemma score_step_spec observed derived st rule :
  score_step observed derived st rule =
  if negb (intermediate rule) && satisfied observed derived rule
  then (assign (result rule)
               (bestCount (explore_rule observed derived rule)) st.1,
        assign (result rule)
               (bestSet (explore_rule observed derived rule)) st.2)
  else st.
Proof.
  unfold score_step. rewrite satisfied_groups_spec.
  destruct (intermediate rule); simpl; [done|].
  by destruct (satisfied observed derived rule).
Qed.

(** Both maps hold, under every key, what the last writing rule put there. *)
Lemma score_rules_lookup rules observed derived c :
  (score_rules rules observed derived).1 !! c
  = (fun rule => bestCount (explore_rule observed derived rule))
      <$> winner observed derived c rules
  ∧ (score_rules rules observed derived).2 !! c
  = (fun rule => bestSet (explore_rule observed derived rule))
      <$> winner observed derived c rules.
Proof.
  unfold score_rules, winner.
  induction rules as [|rule rules IH] using rev_ind; [done|].
  rewrite foldl_app, rev_app_distr. simpl.
  rewrite score_step_spec. unfold writes at 1 3. unfold assign.
  destruct (negb (intermediate rule) && satisfied observed derived rule);
    simpl; [|exact IH].
  destruct (String.eqb (result rule) "__proto__"); simpl; [exact IH|].
  destruct (String.eqb_spec (result rule) c) as [->|Hne]; simpl.
  - by rewrite !lookup_insert_eq.
  - by rewrite !lookup_insert_ne.
Qed.

Lemma winner_Some observed derived c rules rule :
  winner observed derived c rules = Some rule →
  rule ∈ rules ∧ intermediate rule = false ∧
  satisfied observed derived rule = true ∧ result rule = c.
Proof.
  unfold winner. intros H. apply find_some in H as [Hin Hw].
  unfold writes in Hw. apply andb_true_iff in Hw as [Hw He].
  apply andb_true_iff in Hw as [Hw _].
  apply andb_true_iff in Hw as [Hi Hs].
  apply String.eqb_eq in He. apply negb_true_iff in Hi.
  apply in_rev, list_elem_of_In in Hin. done.
Qed.

(** Nothing is written under the key [__proto__]. *)
Lemma winner_not_proto observed derived c rules rule :
  winner observed derived c rules = Some rule → c ≠ "__proto__".
Proof.
  unfold winner. intros H. apply find_some in H as [_ Hw].
  unfold writes in Hw. apply andb_true_iff in Hw as [Hw He].
  apply andb_true_iff in Hw as [_ Hp].
  apply String.eqb_eq in He. apply negb_true_iff, String.eqb_neq in Hp.
  congruence.
Qed.

Lemma winner_is_Some observed derived rules rule :
  rule ∈ rules → intermediate rule = false →
  satisfied observed derived rule = true →
  result rule ≠ "__proto__" →
  is_Some (winner observed derived (result rule) rules).
Proof.
  intros Hin Hi Hs Hp. unfold winner.
  destruct (List.find _ _) eqn:Hf; [by eexists|].
  apply list_elem_of_In, in_rev in Hin.
  pose proof (find_none _ _ Hf _ Hin) as Hw.
  apply String.eqb_neq in Hp.
  unfold writes in Hw. rewrite Hi, Hs, Hp, String.eqb_refl in Hw.
  discriminate.
Qed.

(** The last satisfied final rule of a result is the rule whose values the
    two maps hold under that result. *)
Lemma winner_last observed derived rules rule :
  intermediate rule = false →
  satisfied observed derived rule = true →
  result rule ≠ "__proto__" →
  last_satisfied (known observed derived) rules rule →
  winner observed derived (result rule) rules = Some rule.
Proof.
  intros Hi Hs Hp (before & after & -> & Hafter). unfold winner.
  rewrite rev_app_distr. simpl. rewrite <- app_assoc. simpl.
  apply String.eqb_neq in Hp.
  assert (writes observed derived (result rule) rule = true) as Hw.
  { unfold writes. by rewrite Hi, Hs, Hp, String.eqb_refl. }
  induction after as [|later after IH] using rev_ind.
  - simpl. by rewrite Hw.
  - rewrite rev_app_distr. simpl.
    apply Forall_app in Hafter as [Hafter Hlater].
    apply Forall_inv in Hlater.
    destruct (writes observed derived (result rule) later) eqn:Hl;
      [|by apply IH].
    exfalso. apply Hlater. unfold writes in Hl.
    apply andb_true_iff in Hl as [Hl He].
    apply andb_true_iff in Hl as [Hl _].
    apply andb_true_iff in Hl as [Hli Hls].
    apply String.eqb_eq in He. apply negb_true_iff in Hli.
    by apply satisfied_holds in Hls.
Qed.


Lemma no_proto_result_spec rules rule :
  no_proto_result rules → rule ∈ rules → intermediate rule = false →
  result rule ≠ "__proto__".
Proof.
  unfold no_proto_result. rewrite Forall_forall. intros H Hin. by apply H.
Qed.


(** No rule of the treatment plan has the result [__proto__]. *)
Lemma treatment_plan_no_proto : no_proto_result treatment_plan.
Proof. repeat (constructor; [by intros ?|]). constructor. Qed.

(** ** Exploration: what holds for every rule *)

Section explore_pool.
Context (observed : list Fact) (pool : gset Fact).

Lemma explore_leaf_inside st :
  inside observed pool st → inside observed pool (explore_leaf observed st).
Proof.
  intros (Hc & Hb & Hn & Hz). unfold explore_leaf.
  destruct (bestCount st <? _) eqn:Hlt; [|done].
  apply Nat.ltb_lt in Hlt. repeat split; simpl; try done. lia.
Qed.

Lemma explore_inside todo st :
  (∀ group sym, group ∈ todo → sym ∈ group → sym ∈ pool) →
  inside observed pool st → inside observed pool (explore observed todo st).
Proof.
  revert st. induction todo as [|syms todo IH]; intros st Hpool Hst; simpl.
  - by apply explore_leaf_inside.
  - assert (∀ sym, sym ∈ syms → sym ∈ pool) as Hsyms.
    { intros sym Hin. eapply Hpool; [by left|done]. }
    assert (∀ group sym, group ∈ todo → sym ∈ group → sym ∈ pool) as Htodo.
    { intros group sym Hg. apply Hpool. by right. }
    clear Hpool. revert st Hst.
    induction syms as [|sym syms IHs]; intros st Hst; simpl; [done|].
    apply IHs.
    { intros s Hs. apply Hsyms. by right. }
    destruct (IH (mkExplore ({[sym]} ∪ currentSet st) (bestCount st)
                            (bestSet st)) Htodo) as (Hc & Hb & Hn & Hz).
    { destruct Hst as (Hc & Hb & Hn & Hz). repeat split; simpl; try done.
      apply union_subseteq. split; [|done].
      apply singleton_subseteq_l, Hsyms. by left. }
    repeat split; simpl; try done.
    etrans; [|exact Hc]. apply subseteq_difference_l. done.
Qed.
End explore_pool.

Lemma explore_rule_inside observed derived rule :
  inside observed (list_to_set observed ∪ derived)
         (explore_rule observed derived rule).
Proof.
  unfold explore_rule, explore_all. apply explore_inside.
  - intros group sym Hg Hs. unfold available_groups in Hg.
    apply list_elem_of_In, in_map_iff in Hg as (g & <- & _).
    apply list_elem_of_In, filter_In in Hs as [_ Ha].
    apply available_known in Ha as [?|?]; set_solver.
  - repeat split; simpl; apply empty_subseteq.
Qed.

(** ** Exploration of groups that share no fact *)

Lemma separate_add todo cur sym :
  separate todo cur → (∀ other, other ∈ todo → sym ∉ other) →
  separate todo ({[sym]} ∪ cur).
Proof.
  induction todo as [|group rest IH]; simpl; [done|].
  intros [Hg Hrest] Hsym. split.
  - intros s Hs. destruct (Hg s Hs) as [Hcur Hoth]. split; [|done].
    intros [->%elem_of_singleton|?]%elem_of_union; [|done].
    by apply (Hsym group); [left|].
  - apply IH; [done|]. intros other Ho. apply Hsym. by right.
Qed.

Lemma groups_disjoint_separate groups :
  groups_disjoint groups = true → separate groups ∅.
Proof.
  induction groups as [|group rest IH]; simpl; [done|].
  intros [Hg Hrest]%andb_true_iff. split; [|by apply IH].
  intros sym Hs. split; [apply not_elem_of_empty|].
  apply list_elem_of_In in Hs.
  rewrite forallb_forall in Hg. specialize (Hg sym Hs).
  rewrite forallb_forall in Hg.
  intros other Ho. apply list_elem_of_In in Ho.
  specialize (Hg other Ho). by apply negb_true_iff, bool_decide_eq_false in Hg.
Qed.

(** Groups with fewer facts stay separate. *)
Lemma separate_mono groups groups' cur :
  Forall2 (fun group group' => ∀ s, s ∈ group → s ∈ group') groups groups' →
  separate groups' cur → separate groups cur.
Proof.
  induction 1 as [|group group' groups groups' Hg Hrest IH]; [done|].
  simpl. intros [Hsym Hsep]. split; [|by apply IH].
  intros sym Hs. destruct (Hsym sym (Hg sym Hs)) as [Hcur Hother].
  split; [done|]. intros other Ho Hin.
  apply list_elem_of_lookup in Ho as [i Hi].
  destruct (Forall2_lookup_l _ _ _ _ _ Hrest Hi) as (other' & Hi' & Hsub).
  apply (Hother other'); [by eapply list_elem_of_lookup_2|by apply Hsub].
Qed.

Lemma available_groups_sub observed derived groups :
  Forall2 (fun group group' => ∀ s, s ∈ group → s ∈ group')
          (available_groups observed derived groups) groups.
Proof.
  induction groups as [|group groups IH]; simpl; constructor; [|done].
  intros s Hs. by apply list_elem_of_In, filter_In in Hs as [?%list_elem_of_In _].
Qed.

(** Groups that share no fact have available facts that share none; the
    converse fails when a shared fact is not available. *)
Lemma groups_disjoint_available observed derived groups :
  groups_disjoint groups = true →
  groups_disjoint (available_groups observed derived groups) = true.
Proof.
  induction groups as [|group rest IH]; simpl; [done|].
  intros [Hg Hrest]%andb_true_iff. apply andb_true_iff.
  split; [|by apply IH].
  rewrite forallb_forall in Hg. apply forallb_forall.
  intros sym [Hs _]%filter_In. specialize (Hg sym Hs).
  rewrite forallb_forall in Hg. apply forallb_forall.
  intros other' (other & <- & Ho)%in_map_iff. specialize (Hg other Ho).
  apply negb_true_iff, bool_decide_eq_false in Hg.
  apply negb_true_iff, bool_decide_eq_false. intros Hin. apply Hg.
  by apply list_elem_of_In, filter_In in Hin as [?%list_elem_of_In _].
Qed.

Lemma best_over_app observed cur acc combos combos' :
  best_over observed cur acc (combos ++ combos')
  = best_over observed cur (best_over observed cur acc combos) combos'.
Proof. unfold best_over. by rewrite foldl_app. Qed.

Lemma best_over_cons observed cur acc picks combos :
  best_over observed cur acc (picks :: combos)
  = best_over observed cur
      (keep_best observed acc (list_to_set picks ∪ cur)) combos.
Proof. done. Qed.

Lemma best_over_pick observed cur acc sym combos :
  best_over observed cur acc (List.map (cons sym) combos)
  = best_over observed ({[sym]} ∪ cur) acc combos.
Proof.
  unfold best_over. revert acc.
  induction combos as [|picks combos IH]; intros acc; simpl; [done|].
  rewrite IH. do 2 f_equal. set_solver.
Qed.

(** On separate groups [explore] restores [currentSet] and passes every
    combination, joined with the facts picked so far, to the leaf. *)
Lemma explore_separate observed todo cur bc bs :
  separate todo cur →
  explore observed todo (mkExplore cur bc bs) =
  mkExplore cur (best_over observed cur (bc, bs) (combinations todo)).1
                (best_over observed cur (bc, bs) (combinations todo)).2.
Proof.
  revert cur bc bs. induction todo as [|syms todo IH]; intros cur bc bs.
  - intros _. unfold best_over, keep_best. simpl. unfold explore_leaf. simpl.
    rewrite (left_id_L ∅ (∪) cur).
    by destruct (bc <? count_observed observed cur).
  - simpl. intros [Hsyms Htodo]. revert bc bs.
    induction syms as [|sym syms IHs]; intros bc bs; simpl; [done|].
    destruct (Hsyms sym) as [Hcur Hoth]; [by left|].
    rewrite IH by (by apply separate_add). simpl.
    replace (({[sym]} ∪ cur) ∖ {[sym]}) with cur by set_solver.
    rewrite IHs by (intros s Hs; apply Hsyms; by right).
    by rewrite best_over_app, best_over_pick, <- surjective_pairing.
Qed.

(** ** The scoring in the words of the specification *)

Lemma count_observed_list_to_set observed picks :
  count_observed observed (list_to_set picks) = spec_score observed picks.
Proof.
  unfold count_observed, spec_score.
  apply Permutation_length, NoDup_Permutation.
  - apply NoDup_ListNoDup, List.NoDup_filter, NoDup_ListNoDup, NoDup_elements.
  - apply NoDup_remove_dups.
  - intros sym.
    rewrite elem_of_remove_dups, !list_elem_of_In, !filter_In.
    rewrite <- !list_elem_of_In, elem_of_elements, elem_of_list_to_set. done.
Qed.

Lemma keep_best_picks observed acc picks :
  keep_best observed acc (list_to_set picks ∪ ∅)
  = if acc.1 <? spec_score observed picks
    then (spec_score observed picks, list_to_set picks)
    else acc.
Proof.
  unfold keep_best.
  by rewrite (right_id_L ∅ (∪)), count_observed_list_to_set.
Qed.

(** The best pair after a run over [combos] from the pair [(bc, bs)]: the
    count is the maximum seen, and the set is replaced only by the first
    combination that reaches a count above [bc] equal to the final one. *)
Lemma best_over_spec observed combos bc bs :
  (best_over observed ∅ (bc, bs) combos).1
  = Nat.max bc (spec_best_score observed combos)
  ∧ ((best_over observed ∅ (bc, bs) combos).1 = bc →
     (best_over observed ∅ (bc, bs) combos).2 = bs)
  ∧ ((best_over observed ∅ (bc, bs) combos).1 ≠ bc →
     ∃ picks,
       List.find (fun picks => spec_score observed picks
                               =? (best_over observed ∅ (bc, bs) combos).1)
                 combos = Some picks
       ∧ (best_over observed ∅ (bc, bs) combos).2 = list_to_set picks).
Proof.
  unfold spec_best_score. revert bc bs.
  induction combos as [|picks combos IH]; intros bc bs.
  - simpl. split; [lia|]. split; [done|]. intros H. by destruct H.
  - rewrite best_over_cons, keep_best_picks.
    change (max_list (spec_score observed <$> picks :: combos))
      with (Nat.max (spec_score observed picks)
                    (max_list (spec_score observed <$> combos))).
    cbn [List.find fst].
    destruct (bc <? spec_score observed picks) eqn:Hlt.
    + apply Nat.ltb_lt in Hlt.
      destruct (IH (spec_score observed picks) (list_to_set picks))
        as (Hmax & Hsame & Hdiff).
      split; [lia|]. split; [lia|]. intros _.
      destruct (decide ((best_over observed ∅
                           (spec_score observed picks, list_to_set picks)
                           combos).1 = spec_score observed picks)) as [He|Hne].
      * exists picks. rewrite He, Nat.eqb_refl. split; [done|by apply Hsame].
      * destruct (Hdiff Hne) as (p & Hf & Hp). exists p. split; [|done].
        apply Nat.eqb_neq in Hne. rewrite Nat.eqb_sym in Hne. by rewrite Hne.
    + apply Nat.ltb_ge in Hlt.
      destruct (IH bc bs) as (Hmax & Hsame & Hdiff).
      split; [lia|]. split; [done|]. intros Hne.
      destruct (Hdiff Hne) as (p & Hf & Hp). exists p. split; [|done].
      assert (spec_score observed picks
              ≠ (best_over observed ∅ (bc, bs) combos).1) as Hn by lia.
      apply Nat.eqb_neq in Hn. by rewrite Hn.
Qed.

(** On a rule whose available facts are separate, the exploration finds the
    maximal score of the specification, and records the first combination
    that attains it unless that score is 0. *)
Lemma explore_rule_separate observed derived rule :
  separate (available_groups observed derived (groups rule)) ∅ →
  let combos :=
    combinations (available_groups observed derived (groups rule)) in
  bestCount (explore_rule observed derived rule)
  = spec_best_score observed combos
  ∧ (spec_best_score observed combos = 0 →
     bestSet (explore_rule observed derived rule) = ∅)
  ∧ (0 < spec_best_score observed combos →
     ∃ picks, spec_first_best observed combos = Some picks ∧
              bestSet (explore_rule observed derived rule)
              = list_to_set picks).
Proof.
  intros Hsep combos. unfold explore_rule, explore_all.
  rewrite explore_separate by done.
  simpl. fold combos.
  destruct (best_over_spec observed combos 0 ∅) as (Hmax & Hsame & Hdiff).
  rewrite Nat.max_0_l in Hmax. split; [done|]. split.
  - intros H0. apply Hsame. congruence.
  - intros Hpos. destruct Hdiff as (picks & Hf & Hp); [lia|].
    exists picks. split; [|done]. unfold spec_first_best. by rewrite <- Hmax.
Qed.

Lemma explore_rule_disjoint observed derived rule :
  groups_disjoint (available_groups observed derived (groups rule)) = true →
  let combos :=
    combinations (available_groups observed derived (groups rule)) in
  bestCount (explore_rule observed derived rule)
  = spec_best_score observed combos
  ∧ (spec_best_score observed combos = 0 →
     bestSet (explore_rule observed derived rule) = ∅)
  ∧ (0 < spec_best_score observed combos →
     ∃ picks, spec_first_best observed combos = Some picks ∧
              bestSet (explore_rule observed derived rule)
              = list_to_set picks).
Proof.
  intros H. by apply explore_rule_separate, groups_disjoint_separate.
Qed.

(** * The properties of the engine *)

(** ** Task 1 of the dataset *)

Lemma task1_derived :
  derived (evaluateTask task1)
  = {[ "broken bones"; "low blood pressure" ]}.
Proof. vm_compute. reflexivity. Qed.

Lemma task1_finalScores :
  finalScores (evaluateTask task1)
  = <[ "tranquilizers" := 3 ]> (<[ "vitamins" := 2 ]> ∅).
Proof. vm_compute. reflexivity. Qed.

Lemma task1_usedCombos :
  usedCombos (evaluateTask task1)
  = <[ "tranquilizers" :=
         {[ "migraine"; "thirsty"; "bloating"; "low blood pressure" ]} ]>
      (<[ "vitamins" := {[ "broken bones"; "thirsty"; "vomiting" ]} ]> ∅).
Proof. vm_compute. reflexivity. Qed.

(** C1, as stated, fails on the code: for task 1 the claim wants
    [fast heart rate] derived and [broken bones] and [low blood pressure] not
    derived, but [brain fog] is observed and alone satisfies the single group
    of the rules for [broken bones] and [low blood pressure], while the second
    group of the rule for [fast heart rate] has no observed fact. *)
Lemma C1_task1_as_stated_fails :
  ¬ ("fast heart rate" ∈ derived (evaluateTask task1)
     ∧ ("broken bones" ∉ derived (evaluateTask task1))
     ∧ ("low blood pressure" ∉ derived (evaluateTask task1))
     ∧ (∃ s, finalScores (evaluateTask task1) !! "tranquilizers" = Some s
             ∧ 3 ≤ s)
     ∧ finalScores (evaluateTask task1) !! "stimulants" = None
     ∧ finalScores (evaluateTask task1) !! "antibiotics" = None
     ∧ (∀ c s s', finalScores (evaluateTask task1) !! c = Some s →
                  finalScores (evaluateTask task1) !! "tranquilizers"
                  = Some s' →
                  c ≠ "tranquilizers" → s < s')).
Proof.
  intros (_ & Hbb & _). apply Hbb. rewrite task1_derived. set_solver.
Qed.

(** C1, amended: for task 1 the derived set has [broken bones] and
    [low blood pressure] but not [fast heart rate]; the score of
    [tranquilizers] is at least 3 (it is 3); [stimulants] and [antibiotics]
    are not keys of [finalScores]; and every other conclusion of [finalScores]
    scores strictly less than [tranquilizers]. *)
Theorem C1_task1_evaluation :
  ("fast heart rate" ∉ derived (evaluateTask task1))
  ∧ "broken bones" ∈ derived (evaluateTask task1)
  ∧ "low blood pressure" ∈ derived (evaluateTask task1)
  ∧ (∃ s, finalScores (evaluateTask task1) !! "tranquilizers" = Some s
          ∧ 3 ≤ s)
  ∧ finalScores (evaluateTask task1) !! "stimulants" = None
  ∧ finalScores (evaluateTask task1) !! "antibiotics" = None
  ∧ (∀ c s s', finalScores (evaluateTask task1) !! c = Some s →
               finalScores (evaluateTask task1) !! "tranquilizers" = Some s' →
               c ≠ "tranquilizers" → s < s').
Proof.
  rewrite task1_derived, task1_finalScores.
  split; [set_solver|]. split; [set_solver|]. split; [set_solver|].
  split; [exists 3; by rewrite lookup_insert_eq|].
  split; [done|]. split; [done|].
  intros c s s' Hc Ht Hne.
  rewrite lookup_insert_eq in Ht. injection Ht as <-.
  rewrite lookup_insert_ne in Hc by done.
  apply lookup_insert_Some in Hc as [[_ <-]|[_ Hc]]; [lia|].
  by rewrite lookup_empty in Hc.
Qed.

(** ** The entries of the two maps *)

Lemma evaluateTask_finalScores task c :
  finalScores (evaluateTask task) !! c
  = (fun rule => bestCount (explore_rule (observed task)
                              (derived (evaluateTask task)) rule))
      <$> winner (observed task) (derived (evaluateTask task)) c (rules task).
Proof. apply score_rules_lookup. Qed.

Lemma evaluateTask_usedCombos task c :
  usedCombos (evaluateTask task) !! c
  = (fun rule => bestSet (explore_rule (observed task)
                            (derived (evaluateTask task)) rule))
      <$> winner (observed task) (derived (evaluateTask task)) c (rules task).
Proof. apply score_rules_lookup. Qed.

(** C2, as stated, fails on the code: in task 1 the evidence recorded for
    [tranquilizers] contains [low blood pressure], a derived fact that is not
    observed. *)
Lemma C2_used_subset_observed_fails :
  ¬ (∀ c used, usedCombos (evaluateTask task1) !! c = Some used →
               ∀ sym, sym ∈ used → sym ∈ observed task1).
Proof.
  intros H.
  specialize (H "tranquilizers"
                {[ "migraine"; "thirsty"; "bloating"; "low blood pressure" ]}).
  rewrite task1_usedCombos, lookup_insert_eq in H.
  specialize (H eq_refl "low blood pressure").
  assert ("low blood pressure" ∉ observed task1) as Hn.
  { apply (bool_decide_unpack _). by vm_compute. }
  apply Hn, H. set_solver.
Qed.

(** C2, amended: for every task and every key [c] of [usedCombos], every fact
    of the recorded set [usedCombos[c]] is observed or derived. *)
Theorem C2_used_subset_known task c used :
  usedCombos (evaluateTask task) !! c = Some used →
  used ⊆ list_to_set (observed task) ∪ derived (evaluateTask task).
Proof.
  rewrite evaluateTask_usedCombos.
  destruct (winner _ _ _ _) as [rule|]; simpl; [|discriminate].
  intros [= <-]. apply explore_rule_inside.
Qed.

Lemma C2_used_subset_known_witness :
  usedCombos (evaluateTask task1) !! "tranquilizers"
  = Some {[ "migraine"; "thirsty"; "bloating"; "low blood pressure" ]}
  ∧ ({[ "migraine"; "thirsty"; "bloating"; "low blood pressure" ]} : gset Fact)
    ⊆ list_to_set (observed task1) ∪ derived (evaluateTask task1).
Proof.
  split; [vm_compute; reflexivity|].
  apply (C2_used_subset_known task1 "tranquilizers").
  vm_compute. reflexivity.
Defined.

(** ** Rules without groups *)

(** C3, as stated, fails on the code: [every] over an empty [groups] is true
    and the loop that fills [satisfiedGroups] never clears [allSatisfied], so
    an intermediate rule without groups is derived and a final rule without
    groups gets an entry. *)
Lemma C3_empty_groups_never_fire_fails :
  ¬ (∀ rule, rule ∈ rules task_no_groups → groups rule = [] →
       if intermediate rule
       then result rule ∉ derived (evaluateTask task_no_groups)
       else finalScores (evaluateTask task_no_groups) !! result rule = None
            ∧ usedCombos (evaluateTask task_no_groups) !! result rule = None).
Proof.
  intros H. specialize (H (mkRule [] "x" true)). simpl in H.
  apply H; [by left|done|].
  apply (bool_decide_unpack _). by vm_compute.
Qed.

(** C3, amended: a rule whose groups sequence is empty is always satisfied:
    the result of an intermediate rule without groups is in [derived]; the
    result of a final rule without groups is a key of [finalScores] unless it
    is [__proto__], and a key of [usedCombos] in a task none of whose final
    rules has the result [__proto__]. *)
Theorem C3_empty_groups_fire task rule :
  rule ∈ rules task → groups rule = [] →
  if intermediate rule
  then result rule ∈ derived (evaluateTask task)
  else (result rule ≠ "__proto__" →
        is_Some (finalScores (evaluateTask task) !! result rule))
       ∧ (no_proto_result (rules task) →
          is_Some (usedCombos (evaluateTask task) !! result rule)).
Proof.
  intros Hin Hg. destruct (intermediate rule) eqn:Hi.
  - apply (deriveClosure_closed (rules task) (observed task)); try done.
    intros group Hgroup. rewrite Hg in Hgroup. by apply elem_of_nil in Hgroup.
  - assert (satisfied (observed task) (derived (evaluateTask task)) rule
            = true) as Hs by (unfold satisfied; by rewrite Hg).
    rewrite evaluateTask_finalScores, evaluateTask_usedCombos.
    rewrite !fmap_is_Some. split.
    + intros Hp. by apply winner_is_Some.
    + intros Hnp. apply winner_is_Some; try done.
      by eapply no_proto_result_spec.
Qed.

Lemma task_no_groups_no_proto : no_proto_result (rules task_no_groups).
Proof. repeat (constructor; [by intros ?|]). constructor. Qed.

Lemma C3_empty_groups_fire_witness :
  "x" ∈ derived (evaluateTask task_no_groups)
  ∧ is_Some (finalScores (evaluateTask task_no_groups) !! "m")
  ∧ is_Some (usedCombos (evaluateTask task_no_groups) !! "m").
Proof.
  split.
  - apply (C3_empty_groups_fire task_no_groups (mkRule [] "x" true));
      [by left|reflexivity].
  - destruct (C3_empty_groups_fire task_no_groups (mkRule [] "m" false))
      as [Hscore Hused]; [by right; left|reflexivity|].
    split; [by apply Hscore|apply Hused, task_no_groups_no_proto].
Defined.

(** ** Eligibility *)




(** ** Idempotence of the derivation *)

Lemma evaluateTask_derived task :
  derived (evaluateTask task) = deriveClosure (rules task) (observed task).
Proof. done. Qed.

Lemma deriveClosure_idempotent rules observed :
  deriveClosure rules observed
  = deriveClosure rules
      (observed ++ elements (deriveClosure rules observed)).
Proof.
  apply set_eq. intros sym. split.
  - apply deriveClosure_mono. intros s Hs. apply elem_of_app. by left.
  - apply (deriveClosure_least rules _
             (known observed (deriveClosure rules observed))).
    + intros s [Hs|Hs]%elem_of_app; [by left|].
      right. by apply elem_of_elements in Hs.
    + intros s Hs. by right.
    + apply deriveClosure_closed.
Qed.

(** C7: running the derivation again with the derived facts added to the
    observed ones yields the same derived set, both for the forward-chaining
    closure on its own and for the [derived] field of [evaluateTask]. *)
Theorem C7_derive_idempotent rules observed :
  deriveClosure rules observed
  = deriveClosure rules (observed ++ elements (deriveClosure rules observed))
  ∧ ∀ n n',
      derived (evaluateTask (mkTask n rules observed))
      = derived (evaluateTask
                   (mkTask n' rules
                      (observed ++
                       elements (derived (evaluateTask
                                            (mkTask n rules observed)))))).
Proof.
  split; [apply deriveClosure_idempotent|].
  intros n n'. rewrite !evaluateTask_derived. simpl.
  apply deriveClosure_idempotent.
Qed.

(** ** Grading *)

Lemma Math_max_Some xs M :
  Math_max xs = Some M ↔ M ∈ xs ∧ ∀ x, x ∈ xs → x ≤ M.
Proof.
  revert M. induction xs as [|x xs IH]; intros M; simpl.
  - split; [discriminate|]. intros [H _]. by apply elem_of_nil in H.
  - destruct (Math_max xs) as [y|] eqn:Hxs.
    + destruct (IH y) as [Hy _]. destruct (Hy eq_refl) as [Hin Hle].
      split.
      * intros [= <-]. split.
        -- destruct (Nat.max_spec x y) as [[_ ->]|[_ ->]];
             [by right|by left].
        -- intros z [->|Hz]%elem_of_cons; [lia|].
           specialize (Hle z Hz). lia.
      * intros [HM Hall]. f_equal.
        assert (x ≤ M) by (apply Hall; by left).
        assert (y ≤ M) by (apply Hall; by right).
        apply elem_of_cons in HM as [->|HM]; [lia|].
        specialize (Hle M HM). lia.
    + assert (xs = []) as ->.
      { destruct xs as [|z xs]; [done|]. simpl in Hxs.
        by destruct (Math_max xs). }
      split.
      * intros [= <-]. split; [by left|].
        intros z [->|Hz]%elem_of_cons; [done|]. by apply elem_of_nil in Hz.
      * intros [[->|HM]%elem_of_cons _]; [done|]. by apply elem_of_nil in HM.
Qed.

Lemma elem_of_Object_values (o : gmap Fact nat) v :
  v ∈ Object_values o ↔ ∃ k, o !! k = Some v.
Proof.
  unfold Object_values. rewrite list_elem_of_fmap. split.
  - intros ([k v'] & -> & Hin). exists k. by apply elem_of_map_to_list.
  - intros [k Hk]. exists (k, v). split; [done|]. by apply elem_of_map_to_list.
Qed.

Lemma elem_of_Object_keys (o : gmap Fact nat) k :
  k ∈ Object_keys o ↔ is_Some (o !! k).
Proof.
  unfold Object_keys. rewrite list_elem_of_fmap. split.
  - intros ([k' v] & -> & Hin). exists v. by apply elem_of_map_to_list.
  - intros [v Hk]. exists (k, v). split; [done|]. by apply elem_of_map_to_list.
Qed.

(** C9: let [M] be the maximum value of a [finalScores] map with at least one
    entry, and [c] the chosen conclusion: the value of a radio button (a
    non-empty code) or [null]. The grade is [best] when [c] is a key whose
    value is [M]; [suboptimal] when [c] is a key whose value is positive and
    not [M]; and [wrong] otherwise, in particular when [c] is [null] or not a
    key. *)
Theorem C9_correctness (evalScores : gmap Fact nat) (c : option Fact) M :
  (∃ k, evalScores !! k = Some M) →
  (∀ k v, evalScores !! k = Some v → v ≤ M) →
  c ≠ Some "" →
  correctness evalScores c =
  match c with
  | None => wrong
  | Some a =>
      match evalScores !! a with
      | None => wrong
      | Some v => if v =? M then best
                  else if 0 <? v then suboptimal else wrong
      end
  end.
Proof.
  intros HM Hle Hc. destruct c as [a|]; [|done].
  unfold correctness, truthy.
  destruct (String.eqb_spec a "") as [->|_]; [done|]. simpl.
  assert (Math_max (Object_values evalScores) = Some M) as ->.
  { apply Math_max_Some. split.
    - by apply elem_of_Object_values.
    - intros x [k Hk]%elem_of_Object_values. eauto. }
  case_bool_decide as Hbest.
  - apply list_elem_of_In, filter_In in Hbest as [_ Hb].
    unfold is_best_score in Hb.
    destruct (evalScores !! a) as [v|]; [|done]. by rewrite Hb.
  - destruct (evalScores !! a) as [v|] eqn:Ha; [|done].
    destruct (v =? M) eqn:Hv; [|done].
    exfalso. apply Hbest. apply list_elem_of_In, filter_In. split.
    + apply list_elem_of_In, elem_of_Object_keys. by eexists.
    + unfold is_best_score. by rewrite Ha.
Qed.

Lemma C9_correctness_witness :
  correctness (finalScores (evaluateTask task1)) (Some "tranquilizers") = best
  ∧ correctness (finalScores (evaluateTask task1)) (Some "vitamins")
    = suboptimal
  ∧ correctness (finalScores (evaluateTask task1)) (Some "laxatives") = wrong
  ∧ correctness (finalScores (evaluateTask task1)) None = wrong.
Proof.
  assert (∃ k, finalScores (evaluateTask task1) !! k = Some 3) as HM.
  { exists "tranquilizers". vm_compute. reflexivity. }
  assert (∀ k v, finalScores (evaluateTask task1) !! k = Some v → v ≤ 3)
    as Hle.
  { intros k v. rewrite task1_finalScores.
    intros [[_ <-]|[_ [[_ <-]|[_ H]]%lookup_insert_Some]]%lookup_insert_Some;
      [lia|lia|by rewrite lookup_empty in H]. }
  split; [|split; [|split]].
  - rewrite (C9_correctness _ (Some "tranquilizers") 3 HM Hle); [|done].
    vm_compute. reflexivity.
  - rewrite (C9_correctness _ (Some "vitamins") 3 HM Hle); [|done].
    vm_compute. reflexivity.
  - rewrite (C9_correctness _ (Some "laxatives") 3 HM Hle); [|done].
    vm_compute. reflexivity.
  - rewrite (C9_correctness _ None 3 HM Hle); [|done]. reflexivity.
Defined.

(** ** More observed facts *)

Lemma available_mono (observed observed' : list Fact)
    (derived derived' : gset Fact) sym :
  (∀ s, s ∈ observed → s ∈ observed') → derived ⊆ derived' →
  available observed derived sym = true →
  available observed' derived' sym = true.
Proof.
  intros Ho Hd. rewrite !available_known. intros [?|?]; [left|right]; auto.
Qed.

Lemma satisfied_mono (observed observed' : list Fact)
    (derived derived' : gset Fact) rule :
  (∀ s, s ∈ observed → s ∈ observed') → derived ⊆ derived' →
  satisfied observed derived rule = true →
  satisfied observed' derived' rule = true.
Proof.
  intros Ho Hd. rewrite !satisfied_holds. apply holds_mono.
  intros sym [?|?]; [left|right]; auto.
Qed.

Lemma combinations_mono groups groups' :
  Forall2 (fun group group' => ∀ s, s ∈ group → s ∈ group') groups groups' →
  ∀ picks, picks ∈ combinations groups → picks ∈ combinations groups'.
Proof.
  induction 1 as [|group group' groups groups' Hg _ IH]; [done|].
  intros picks. simpl. rewrite !list_elem_of_In, !in_flat_map.
  intros (sym & Hsym & Hp). exists sym.
  split; [by apply list_elem_of_In, Hg, list_elem_of_In|].
  apply in_map_iff in Hp as (rest & <- & Hrest). apply in_map.
  by apply list_elem_of_In, IH, list_elem_of_In.
Qed.

Lemma available_groups_mono (observed observed' : list Fact)
    (derived derived' : gset Fact) groups :
  (∀ s, s ∈ observed → s ∈ observed') → derived ⊆ derived' →
  Forall2 (fun group group' => ∀ s, s ∈ group → s ∈ group')
          (available_groups observed derived groups)
          (available_groups observed' derived' groups).
Proof.
  intros Ho Hd. induction groups as [|group groups IH]; simpl;
    constructor; [|done].
  intros s. rewrite !list_elem_of_In, !filter_In. intros [? Ha].
  split; [done|]. by eapply available_mono.
Qed.

Lemma spec_score_mono (observed observed' : list Fact) picks :
  (∀ s, s ∈ observed → s ∈ observed') →
  spec_score observed picks ≤ spec_score observed' picks.
Proof.
  intros Ho. unfold spec_score. apply submseteq_length, NoDup_submseteq.
  - apply NoDup_remove_dups.
  - intros sym. rewrite !elem_of_remove_dups, !list_elem_of_In, !filter_In.
    rewrite !bool_decide_eq_true. intros [? ?]. auto.
Qed.

Lemma spec_best_score_mono (observed observed' : list Fact) combos combos' :
  (∀ s, s ∈ observed → s ∈ observed') →
  (∀ picks, picks ∈ combos → picks ∈ combos') →
  spec_best_score observed combos ≤ spec_best_score observed' combos'.
Proof.
  intros Ho. unfold spec_best_score.
  induction combos as [|picks combos IH]; intros Hc; simpl; [lia|].
  apply Nat.max_lub.
  - etrans; [by apply spec_score_mono|].
    apply max_list_elem_of_le, list_elem_of_fmap_2, Hc. by left.
  - apply IH. intros p Hp. apply Hc. by right.
Qed.

(** ** The last satisfied rule of a result *)

Lemma last_satisfied_elem (P : Fact -> Prop) rules rule :
  last_satisfied P rules rule → rule ∈ rules.
Proof.
  intros (before & after & -> & _). apply elem_of_app. right. by left.
Qed.

(** The only final rule with its result is the last satisfied one. *)
Lemma sole_last_satisfied (P : Fact -> Prop) rules rule :
  rule ∈ rules →
  (∀ rule', rule' ∈ rules → intermediate rule' = false →
            result rule' = result rule → rule' = rule) →
  last_satisfied P rules rule.
Proof.
  intros Hin Hsole.
  apply list_elem_of_split_r in Hin as (before & after & -> & Hnot).
  exists before, after. split; [done|].
  apply Forall_forall. intros later Hl (Hi & Hres & _).
  apply Hnot. rewrite <- (Hsole later); [done| |done|done].
  apply elem_of_app. right. by right.
Qed.

(** A rule that is the last satisfied one with more known facts is the last
    satisfied one with fewer. *)
Lemma last_satisfied_mono (P Q : Fact -> Prop) rules rule :
  (∀ sym, P sym → Q sym) →
  last_satisfied Q rules rule → last_satisfied P rules rule.
Proof.
  intros HPQ (before & after & -> & Hafter).
  exists before, after. split; [done|].
  eapply Forall_impl; [exact Hafter|].
  intros later Hn (Hi & Hres & Hh). apply Hn.
  split; [done|]. split; [done|]. by eapply holds_mono.
Qed.

(** The two entries written for the last satisfied final rule of a result. *)
Lemma last_rule_entries task rule :
  intermediate rule = false →
  holds (known (observed task) (derived (evaluateTask task))) rule →
  last_satisfied (known (observed task) (derived (evaluateTask task)))
                 (rules task) rule →
  result rule ≠ "__proto__" →
  finalScores (evaluateTask task) !! result rule
  = Some (bestCount (explore_rule (observed task)
                       (derived (evaluateTask task)) rule))
  ∧ usedCombos (evaluateTask task) !! result rule
    = Some (bestSet (explore_rule (observed task)
                       (derived (evaluateTask task)) rule)).
Proof.
  intros Hi Hh Hlast Hp. apply satisfied_holds in Hh.
  rewrite evaluateTask_finalScores, evaluateTask_usedCombos.
  by rewrite (winner_last _ _ _ rule).
Qed.

(** ** The score of a conclusion *)

(** C4, as stated, fails on the code: the entry of a conclusion is written by
    every satisfied final rule with that result, in rule order, so an earlier
    rule does not keep its score. Here the first rule has the single
    combination [a] of score 1, and [finalScores] holds the 2 of the second
    rule. *)
Lemma C4_score_of_every_rule_fails :
  ¬ (∀ rule,
       rule ∈ rules task_same_result → intermediate rule = false →
       holds (known (observed task_same_result)
                    (derived (evaluateTask task_same_result))) rule →
       finalScores (evaluateTask task_same_result) !! result rule
       = Some (spec_best_score (observed task_same_result)
                 (combinations
                    (available_groups (observed task_same_result)
                       (derived (evaluateTask task_same_result))
                       (groups rule))))).
Proof.
  intros H. specialize (H (mkRule [["a"]] "m" false)).
  assert (finalScores (evaluateTask task_same_result) !! "m" = Some 2) as Hm
    by (vm_compute; reflexivity).
  simpl result in H. rewrite Hm in H.
  assert (Some 2 = Some 1) as Habs; [|discriminate Habs].
  rewrite H; [vm_compute; reflexivity|by left|done|].
  apply satisfied_holds. vm_compute. reflexivity.
Qed.

(** C4, amended: for every task and every final rule with a result other
    than [__proto__], all of whose groups have a fact observed or derived,
    that is the last such rule of the task with its result and no available
    fact of which occurs in two of its groups, [finalScores[result]] is the
    maximum, over the combinations of one available fact per group, of the
    number of distinct picked facts that are observed. *)
Theorem C4_score_is_maximum task rule :
  intermediate rule = false →
  holds (known (observed task) (derived (evaluateTask task))) rule →
  last_satisfied (known (observed task) (derived (evaluateTask task)))
                 (rules task) rule →
  groups_disjoint (available_groups (observed task)
                     (derived (evaluateTask task)) (groups rule)) = true →
  result rule ≠ "__proto__" →
  finalScores (evaluateTask task) !! result rule
  = Some (spec_best_score (observed task)
            (combinations
               (available_groups (observed task)
                  (derived (evaluateTask task)) (groups rule)))).
Proof.
  intros Hi Hh Hlast Hdis Hp.
  destruct (last_rule_entries task rule Hi Hh Hlast Hp) as [-> _].
  by destruct (explore_rule_disjoint (observed task)
                 (derived (evaluateTask task)) rule Hdis) as (-> & _).
Qed.

(** The rule for [laxatives] is the last rule of the treatment plan, and its
    two groups share [rash]. With [neck pain] and [slurred speech] observed,
    [rash] is not available, and the score is the maximum 2. *)
Lemma C4_score_is_maximum_witness :
  groups_disjoint (groups laxatives_rule) = false
  ∧ finalScores (evaluateTask task_laxatives) !! "laxatives"
    = Some (spec_best_score (observed task_laxatives)
              (combinations
                 (available_groups (observed task_laxatives)
                    (derived (evaluateTask task_laxatives))
                    (groups laxatives_rule))))
  ∧ spec_best_score (observed task_laxatives)
      (combinations
         (available_groups (observed task_laxatives)
            (derived (evaluateTask task_laxatives))
            (groups laxatives_rule))) = 2.
Proof.
  split; [reflexivity|]. split; [|vm_compute; reflexivity].
  apply (C4_score_is_maximum task_laxatives laxatives_rule).
  - reflexivity.
  - apply satisfied_holds. vm_compute. reflexivity.
  - exists (take 7 treatment_plan), []. split; [reflexivity|constructor].
  - vm_compute. reflexivity.
  - discriminate.
Defined.

(** ** The recorded evidence *)

(** C8, as stated, fails on the code: [bestCount] starts at 0 and a
    combination replaces [bestSet] only on a strictly larger count, so when
    the maximal score is 0 no combination is recorded. Here the only
    combination is [x], of score 0, and the recorded set is empty. *)
Lemma C8_first_best_recorded_fails :
  ¬ (∀ rule,
       rule ∈ rules task_derived_only → intermediate rule = false →
       holds (known (observed task_derived_only)
                    (derived (evaluateTask task_derived_only))) rule →
       ∃ picks,
         spec_first_best (observed task_derived_only)
           (combinations
              (available_groups (observed task_derived_only)
                 (derived (evaluateTask task_derived_only)) (groups rule)))
         = Some picks
         ∧ usedCombos (evaluateTask task_derived_only) !! result rule
           = Some (list_to_set picks)).
Proof.
  intros H.
  destruct (H (mkRule [["x"]] "m" false)) as (picks & Hp & Hu).
  - by right; left.
  - done.
  - apply satisfied_holds. vm_compute. reflexivity.
  - assert (spec_first_best (observed task_derived_only)
              (combinations
                 (available_groups (observed task_derived_only)
                    (derived (evaluateTask task_derived_only))
                    (groups (mkRule [["x"]] "m" false))))
            = Some ["x"]) as Hx by (vm_compute; reflexivity).
    rewrite Hx in Hp. injection Hp as <-.
    assert (usedCombos (evaluateTask task_derived_only) !! "m" = Some ∅)
      as Hm by (vm_compute; reflexivity).
    simpl result in Hu. rewrite Hm in Hu.
    assert ((∅ : gset Fact) ≠ list_to_set ["x"]) as Hne; [|congruence].
    intros Heq.
    assert ("x" ∈ (list_to_set ["x"] : gset Fact)) as Hx' by set_solver.
    rewrite <- Heq in Hx'. by apply not_elem_of_empty in Hx'.
Qed.

(** C8, amended: for every task none of whose final rules has the result
    [__proto__], and every final rule all of whose groups have a fact observed
    or derived, that is the last such rule of the task with its result and no
    available fact of which occurs in two of its groups: when the maximal
    score is positive, the recorded used-evidence set is the first
    combination, in enumeration order (groups in rule order, facts in group
    order), whose count of distinct observed facts attains the maximal score,
    and a later combination of equal score does not replace it; when the
    maximal score is 0, the recorded set is empty. *)
Theorem C8_first_best_recorded task rule :
  intermediate rule = false →
  holds (known (observed task) (derived (evaluateTask task))) rule →
  last_satisfied (known (observed task) (derived (evaluateTask task)))
                 (rules task) rule →
  groups_disjoint (available_groups (observed task)
                     (derived (evaluateTask task)) (groups rule)) = true →
  no_proto_result (rules task) →
  let combos :=
    combinations (available_groups (observed task)
                    (derived (evaluateTask task)) (groups rule)) in
  (0 < spec_best_score (observed task) combos →
   ∃ picks, spec_first_best (observed task) combos = Some picks
            ∧ usedCombos (evaluateTask task) !! result rule
              = Some (list_to_set picks))
  ∧ (spec_best_score (observed task) combos = 0 →
     usedCombos (evaluateTask task) !! result rule = Some ∅).
Proof.
  intros Hi Hh Hlast Hdis Hnp combos.
  assert (result rule ≠ "__proto__") as Hp.
  { eapply no_proto_result_spec; [exact Hnp| |exact Hi].
    by eapply last_satisfied_elem. }
  destruct (last_rule_entries task rule Hi Hh Hlast Hp) as [_ ->].
  destruct (explore_rule_disjoint (observed task)
              (derived (evaluateTask task)) rule Hdis) as (_ & Hzero & Hpos).
  fold combos in Hzero, Hpos. split.
  - intros H. destruct (Hpos H) as (picks & Hf & Hb). exists picks.
    by rewrite Hb.
  - intros H. by rewrite Hzero.
Qed.

(** Task 2 offers two combinations for [vitamins]: the first one,
    [broken bones, thirsty, vomiting], scores 2, and the second one,
    [seizures, thirsty, vomiting], is the first to reach the maximum 3. *)
Lemma C8_first_best_recorded_witness :
  spec_first_best (observed task2)
    (combinations (available_groups (observed task2)
                     (derived (evaluateTask task2)) (groups vitamins_rule)))
  = Some ["seizures"; "thirsty"; "vomiting"]
  ∧ ∃ picks,
      spec_first_best (observed task2)
        (combinations (available_groups (observed task2)
                         (derived (evaluateTask task2))
                         (groups vitamins_rule)))
      = Some picks
      ∧ usedCombos (evaluateTask task2) !! "vitamins"
        = Some (list_to_set picks).
Proof.
  split; [vm_compute; reflexivity|].
  apply (C8_first_best_recorded task2 vitamins_rule).
  - reflexivity.
  - apply satisfied_holds. vm_compute. reflexivity.
  - exists (take 6 treatment_plan), [laxatives_rule].
    split; [reflexivity|].
    constructor; [|constructor]. by intros (_ & Hres & _).
  - vm_compute. reflexivity.
  - apply treatment_plan_no_proto.
  - apply Nat.ltb_lt. vm_compute. reflexivity.
Defined.

(** ** Monotonicity *)

(** C6, as stated, fails on the code: with two final rules for the same
    result the later satisfied rule overwrites the entry. Observing [y] in
    addition to [a] derives [b], which satisfies the second rule for [m]; its
    score 0 replaces the score 1 of the first rule. *)
Lemma C6_scores_monotone_fails :
  ¬ ((∀ sym, sym ∈ ["a"] → sym ∈ ["a"; "y"]) →
     derived (evaluateTask (mkTask 0 rules_overwrite ["a"]))
     ⊆ derived (evaluateTask (mkTask 0 rules_overwrite ["a"; "y"]))
     ∧ (∀ c, is_Some (finalScores
                        (evaluateTask (mkTask 0 rules_overwrite ["a"])) !! c) →
             is_Some (finalScores
                        (evaluateTask (mkTask 0 rules_overwrite ["a"; "y"]))
                        !! c))
     ∧ (∀ c s s',
          finalScores (evaluateTask (mkTask 0 rules_overwrite ["a"])) !! c
          = Some s →
          finalScores (evaluateTask (mkTask 0 rules_overwrite ["a"; "y"])) !! c
          = Some s' →
          s ≤ s')).
Proof.
  intros H. destruct H as (_ & _ & H).
  - intros sym Hs. apply list_elem_of_singleton in Hs as ->. by left.
  - specialize (H "m" 1 0). cut (1 ≤ 0); [lia|].
    apply H; vm_compute; reflexivity.
Qed.

(** C6, amended: for a fixed rule list and observed lists [O ⊆ O'], the
    derived set under [O] is included in the derived set under [O'], and every
    key of [finalScores] under [O] is a key under [O']; for every final rule
    satisfied under [O] that under [O'] is the last satisfied final rule with
    its result and has no available fact in two of its groups, the score of
    its result under [O'] is at least the score under [O]. *)
Theorem C6_monotone plan (O O' : list Fact) n n' :
  (∀ sym, sym ∈ O → sym ∈ O') →
  derived (evaluateTask (mkTask n plan O))
  ⊆ derived (evaluateTask (mkTask n' plan O'))
  ∧ (∀ c, is_Some (finalScores (evaluateTask (mkTask n plan O)) !! c) →
          is_Some (finalScores (evaluateTask (mkTask n' plan O')) !! c))
  ∧ (∀ rule s s',
       intermediate rule = false →
       holds (known O (derived (evaluateTask (mkTask n plan O)))) rule →
       last_satisfied
         (known O' (derived (evaluateTask (mkTask n' plan O')))) plan rule →
       groups_disjoint
         (available_groups O' (derived (evaluateTask (mkTask n' plan O')))
            (groups rule)) = true →
       finalScores (evaluateTask (mkTask n plan O)) !! result rule = Some s →
       finalScores (evaluateTask (mkTask n' plan O')) !! result rule
       = Some s' →
       s ≤ s').
Proof.
  intros Hsub.
  assert (derived (evaluateTask (mkTask n plan O))
          ⊆ derived (evaluateTask (mkTask n' plan O'))) as Hd.
  { rewrite !evaluateTask_derived. by apply deriveClosure_mono. }
  split; [done|]. split.
  - intros c. rewrite !evaluateTask_finalScores, !fmap_is_Some.
    intros [rule Hw]. pose proof (winner_not_proto _ _ _ _ _ Hw) as Hp.
    apply winner_Some in Hw as (Hin & Hi & Hs & <-).
    apply winner_is_Some; try done. by eapply satisfied_mono.
  - intros rule s s' Hi Hh Hlast Hdis.
    set (D := derived (evaluateTask (mkTask n plan O))) in *.
    set (D' := derived (evaluateTask (mkTask n' plan O'))) in *.
    assert (∀ sym, known O D sym → known O' D' sym) as Hk.
    { intros sym [?|?]; [left|right]; auto. }
    rewrite (evaluateTask_finalScores (mkTask n plan O)).
    rewrite (evaluateTask_finalScores (mkTask n' plan O')).
    cbn [observed rules]. fold D D'.
    destruct (winner O D (result rule) plan) as [writer|] eqn:Hw;
      [|discriminate].
    pose proof (winner_not_proto _ _ _ _ _ Hw) as Hp.
    rewrite (winner_last O D plan rule) in Hw;
      [|done|by apply satisfied_holds|done|by eapply last_satisfied_mono].
    injection Hw as <-.
    rewrite (winner_last O' D' plan rule);
      [|done|by eapply satisfied_holds, holds_mono|done|done].
    simpl. intros [= <-] [= <-].
    destruct (explore_rule_disjoint O' D' rule Hdis) as (-> & _).
    destruct (explore_rule_separate O D rule) as (-> & _).
    { eapply separate_mono; [by apply available_groups_mono|].
      by apply groups_disjoint_separate. }
    apply spec_best_score_mono; [done|].
    apply combinations_mono. by apply available_groups_mono.
Qed.

(** With [seizures] observed in addition to the facts of task 1, the score of
    [vitamins] in the treatment plan goes from 2 to 3. *)
Lemma C6_monotone_witness :
  (∀ sym, sym ∈ observed1 → sym ∈ observed1_seizures)
  ∧ derived (evaluateTask (mkTask 1 treatment_plan observed1))
    ⊆ derived (evaluateTask (mkTask 1 treatment_plan observed1_seizures))
  ∧ (∀ s s',
       finalScores (evaluateTask (mkTask 1 treatment_plan observed1))
         !! "vitamins" = Some s →
       finalScores (evaluateTask (mkTask 1 treatment_plan observed1_seizures))
         !! "vitamins" = Some s' →
       s ≤ s').
Proof.
  assert (∀ sym, sym ∈ observed1 → sym ∈ observed1_seizures) as Hsub.
  { intros sym Hs. apply elem_of_app. by left. }
  split; [exact Hsub|].
  destruct (C6_monotone treatment_plan observed1 observed1_seizures
              1 1 Hsub) as (Hd & _ & Hs).
  split; [exact Hd|].
  intros s s'. apply (Hs vitamins_rule s s').
  - reflexivity.
  - apply satisfied_holds. vm_compute. reflexivity.
  - exists (take 6 treatment_plan), [laxatives_rule].
    split; [reflexivity|].
    constructor; [|constructor]. by intros (_ & Hres & _).
  - vm_compute. reflexivity.
Defined.

(** ** A fact that occurs in two groups *)

(** C10 at a rule with a fact in two groups: [explore] adds [a] for the first
    group, adds it again for the second group and then deletes it, so the
    combination of [a] with [b] reaches the leaf as the set [{b}]. The
    recorded evidence [{b}] has score 1 and no fact of the first group
    [[a]]: it is not a combination of one pick per group. *)
Theorem C10_evidence_misses_group :
  finalScores (evaluateTask task_shared_fact) !! "m" = Some 1
  ∧ usedCombos (evaluateTask task_shared_fact) !! "m" = Some {[ "b" ]}
  ∧ available_groups (observed task_shared_fact)
      (derived (evaluateTask task_shared_fact)) [["a"]; ["a"; "b"]]
    = [["a"]; ["a"; "b"]]
  ∧ ¬ (∃ sym, sym ∈ ["a"] ∧ sym ∈ ({[ "b" ]} : gset Fact)).
Proof.
  split; [vm_compute; reflexivity|].
  split; [vm_compute; reflexivity|].
  split; [vm_compute; reflexivity|].
  intros (sym & Ha & Hb). apply list_elem_of_singleton in Ha as ->.
  by apply elem_of_singleton in Hb.
Qed.

(** The parts of C10 that hold for every rule: the recorded evidence has as
    many observed facts as the recorded score, and is empty when the score
    is 0. *)
Lemma evidence_count task c s used :
  finalScores (evaluateTask task) !! c = Some s →
  usedCombos (evaluateTask task) !! c = Some used →
  count_observed (observed task) used = s ∧ (s = 0 → used = ∅).
Proof.
  rewrite evaluateTask_finalScores, evaluateTask_usedCombos.
  destruct (winner _ _ _ _) as [rule|]; simpl; [|discriminate].
  intros [= <-] [= <-].
  destruct (explore_rule_inside (observed task)
              (derived (evaluateTask task)) rule) as (_ & _ & Hn & Hz).
  done.
Qed.

(** The same defect on the score: with [a] and [b] observed the combination
    of [a] with [b] has two observed facts, and the recorded score is 1. *)
Lemma shared_fact_score :
  finalScores (evaluateTask
                 (mkTask 0 [ mkRule [["a"]; ["a"; "b"]] "m" false ]
                         ["a"; "b"])) !! "m" = Some 1
  ∧ spec_best_score ["a"; "b"] (combinations [["a"]; ["a"; "b"]]) = 2.
Proof. split; vm_compute; reflexivity. Qed.

(** The same defect on monotonicity, with a single final rule: observing [y]
    in addition derives [z], and with [z] available the combinations that
    follow the pick of [a] in the last group are explored without the [a] of
    the first group. *)
Lemma shared_fact_score_drops :
  finalScores (evaluateTask
                 (mkTask 0 [ mkRule [["y"]] "z" true;
                             mkRule [["a"]; ["z"; "b"]; ["c"; "a"]] "m" false ]
                         ["a"; "b"; "c"])) !! "m" = Some 3
  ∧ finalScores (evaluateTask
                   (mkTask 0 [ mkRule [["y"]] "z" true;
                               mkRule [["a"]; ["z"; "b"]; ["c"; "a"]] "m" false ]
                           ["a"; "b"; "c"; "y"])) !! "m" = Some 2.
Proof. split; vm_compute; reflexivity. Qed.

Lemma dataset_scores_are_maxima :
  forallb (fun task => forallb (score_is_maximum task) (rules task)) tasks
  = true.
Proof. vm_compute. reflexivity. Qed.

(** * The properties of the shuffle and of the AI advice *)

(** ** [shuffle] *)

Lemma floor_random_lt g n : 0 < n → (floor_random g n).1 < n.
Proof.
  intros Hn. unfold floor_random. simpl.
  destruct (Nat.eqb_spec n 0) as [->|Hne]; [lia|].
  by apply Nat.mod_upper_bound.
Qed.

Lemma insert_head_Permutation {A} (l : list A) k a y :
  l !! k = Some y → y :: <[ k := a ]> l ≡ₚ a :: l.
Proof.
  revert k. induction l as [|b l IH]; intros [|k] Hk; simplify_eq/=.
  - apply perm_swap.
  - rewrite perm_swap. rewrite (IH k Hk). apply perm_swap.
Qed.

Lemma swap_Permutation {A} (arr : list A) i j : swap arr i j ≡ₚ arr.
Proof.
  unfold swap.
  destruct (arr !! i) as [x|] eqn:Hi; [|done].
  destruct (arr !! j) as [y|] eqn:Hj; [|done].
  revert i j Hi Hj. induction arr as [|a l IH]; intros [|i] [|j] Hi Hj;
    simplify_eq/=; try done.
  - by apply insert_head_Permutation.
  - by apply insert_head_Permutation.
  - f_equiv. by apply IH.
Qed.

Lemma swap_length {A} (arr : list A) i j : length (swap arr i j) = length arr.
Proof. apply Permutation_length, swap_Permutation. Qed.

(** The two indices of every swap of [shuffle] are inside the array. *)
Lemma swap_in_range {A} (arr : list A) (g : Random) i :
  i < length arr →
  is_Some (arr !! i) ∧ is_Some (arr !! (floor_random g (i + 1)).1).
Proof.
  intros Hi. split; apply lookup_lt_is_Some; [done|].
  pose proof (floor_random_lt g (i + 1)). lia.
Qed.

Lemma shuffle_loop_Permutation {A} i (arr : list A) g :
  (shuffle_loop i arr g).1 ≡ₚ arr.
Proof.
  revert arr g. induction i as [|i IH]; intros arr g; simpl; [done|].
  rewrite IH. apply swap_Permutation.
Qed.

(** X1: whatever the random source returns, [shuffle] returns a permutation
    of its argument: every element of the array occurs in the result as often
    as in the array, and nothing else does. *)
Theorem X1_shuffle_Permutation {A} (array : list A) (g : Random) :
  (shuffle array g).1 ≡ₚ array.
Proof. apply shuffle_loop_Permutation. Qed.


Lemma floor_random_head j (g' : Random) n :
  j < n →
  floor_random (fun k => match k with O => j | S k' => g' k' end) n = (j, g').
Proof.
  intros Hj. unfold floor_random.
  destruct (Nat.eqb_spec n 0) as [->|_]; [lia|].
  by rewrite Nat.mod_small.
Qed.

Lemma shuffle_loop_reaches {A} i (arr target : list A) :
  length target = length arr → i < length arr →
  take (S i) target ≡ₚ take (S i) arr →
  drop (S i) target = drop (S i) arr →
  ∃ g, (shuffle_loop i arr g).1 = target.
Proof.
  revert arr. induction i as [|i IH]; intros arr Hlen Hi Hp Hd.
  - exists (fun _ => 0). simpl.
    destruct arr as [|a arr]; [simpl in Hi; lia|].
    destruct target as [|b target]; [done|]. simpl in Hp, Hd.
    rewrite !take_0 in Hp. rewrite !drop_0 in Hd.
    apply Permutation_singleton_l in Hp. congruence.
  - destruct (lookup_lt_is_Some_2 target (S i)) as [t Ht]; [lia|].
    destruct (lookup_lt_is_Some_2 arr (S i)) as [x Hx]; [lia|].
    assert (∃ j, j < S (S i) ∧ arr !! j = Some t) as (j & Hj & Hjt).
    { assert (t ∈ take (S (S i)) arr) as Hin.
      { rewrite <- Hp. apply (list_elem_of_lookup_2 _ (S i)).
        by rewrite lookup_take_lt by lia. }
      apply list_elem_of_lookup in Hin as [j Hj].
      apply lookup_take_Some in Hj as [? ?]. by exists j. }
    set (arr' := swap arr (S i) j).
    assert (arr' = <[ j := x ]> (<[ S i := t ]> arr)) as Harr'.
    { unfold arr', swap. by rewrite Hx, Hjt. }
    assert (length arr' = length arr) as Hlen' by apply swap_length.
    assert (drop (S (S i)) arr' = drop (S (S i)) arr) as Hd'.
    { rewrite Harr', !drop_insert_lt by lia. done. }
    assert (arr' !! S i = Some t) as Ht'.
    { rewrite Harr'. destruct (decide (j = S i)) as [->|Hne].
      - rewrite list_lookup_insert_eq by (rewrite length_insert; lia).
        congruence.
      - rewrite list_lookup_insert_ne by done.
        by rewrite list_lookup_insert_eq by lia. }
    assert (take (S (S i)) arr' ≡ₚ take (S (S i)) arr) as Hp'.
    { apply (Permutation_app_inv_r (drop (S (S i)) arr)).
      rewrite <- Hd' at 1. rewrite !take_drop. apply swap_Permutation. }
    destruct (IH arr') as [g' Hg'].
    + lia.
    + lia.
    + apply (Permutation_app_inv_r [t]).
      rewrite <- (take_S_r _ _ _ Ht), <- (take_S_r _ _ _ Ht').
      by rewrite Hp, Hp'.
    + rewrite (drop_S _ _ _ Ht), (drop_S _ _ _ Ht'). by rewrite Hd, Hd'.
    + exists (fun k => match k with O => j | S k' => g' k' end).
      cbn [shuffle_loop]. rewrite floor_random_head by lia. exact Hg'.
Qed.

(** X2: every ordering of the array can come out of [shuffle]: for every
    permutation of the argument there is a behaviour of the random source
    under which [shuffle] returns it. *)
Theorem X2_shuffle_reaches {A} (array target : list A) :
  target ≡ₚ array → ∃ g, (shuffle array g).1 = target.
Proof.
  intros Hp. unfold shuffle.
  pose proof (Permutation_length Hp) as Hlen.
  destruct (decide (length array = 0)) as [H0|Hn].
  - apply nil_length_inv in H0 as ->.
    apply Permutation_nil_r in Hp as ->. by exists (fun _ => 0).
  - apply shuffle_loop_reaches; try lia;
      replace (S (length array - 1)) with (length array) by lia.
    + by rewrite (take_ge target), (take_ge array) by lia.
    + by rewrite (drop_ge target), (drop_ge array) by lia.
Qed.

Lemma X2_shuffle_reaches_witness :
  [3; 1; 2] ≡ₚ [1; 2; 3] ∧ ∃ g, (shuffle [1; 2; 3] g).1 = [3; 1; 2].
Proof.
  assert ([3; 1; 2] ≡ₚ [1; 2; 3]) as Hp.
  { apply (bool_decide_unpack _). by vm_compute. }
  split; [exact Hp|]. exact (X2_shuffle_reaches [1; 2; 3] [3; 1; 2] Hp).
Defined.


(** ** [showAIBox]: the recommendation *)

Lemma Math_max_None xs : Math_max xs = None ↔ xs = [].
Proof.
  split; [|by intros ->]. destruct xs as [|x xs]; [done|]. simpl.
  by destruct (Math_max xs).
Qed.

Lemma elem_of_best_meds scores m : m ∈ best_meds scores ↔ top_scorer scores m.
Proof.
  unfold best_meds, top_scorer.
  rewrite list_elem_of_In, filter_In, <- list_elem_of_In, elem_of_Object_keys.
  unfold is_best_score. split.
  - intros [[v Hv] Hb]. rewrite Hv in Hb.
    destruct (Math_max _) as [b|] eqn:Hmax; [|done].
    apply Nat.eqb_eq in Hb as ->. exists b. split; [done|].
    apply Math_max_Some in Hmax as [_ Hle].
    intros k w Hk. apply Hle, elem_of_Object_values. by exists k.
  - intros (v & Hv & Hle). split; [by exists v|]. rewrite Hv.
    assert (Math_max (Object_values scores) = Some v) as ->.
    { apply Math_max_Some. split.
      - apply elem_of_Object_values. by exists m.
      - intros x [k Hk]%elem_of_Object_values. eauto. }
    apply Nat.eqb_refl.
Qed.

Lemma best_meds_nil scores : best_meds scores = [] ↔ scores = ∅.
Proof.
  split.
  - intros Hnil. apply map_empty. intros k.
    destruct (scores !! k) as [v|] eqn:Hk; [exfalso|done].
    destruct (Math_max (Object_values scores)) as [b|] eqn:Hmax.
    + apply Math_max_Some in Hmax as [[m Hm]%elem_of_Object_values Hle].
      assert (m ∈ best_meds scores) as Hin.
      { apply elem_of_best_meds. exists b. split; [done|].
        intros k' w Hk'. apply Hle, elem_of_Object_values. by exists k'. }
      rewrite Hnil in Hin. by apply elem_of_nil in Hin.
    + apply Math_max_None in Hmax.
      assert (v ∈ Object_values scores) as Hin
        by (apply elem_of_Object_values; by exists k).
      rewrite Hmax in Hin. by apply elem_of_nil in Hin.
  - intros ->. done.
Qed.

(** X3: the recommendation of the AI box is [undefined] exactly when
    [finalScores] has no entry, and otherwise it is a conclusion whose score
    is the maximum of [finalScores], whatever the random source returns. *)
Theorem X3_recommendation_is_top scores (g : Random) :
  match (recommendation scores g).1 with
  | None => scores = ∅
  | Some m => top_scorer scores m
  end.
Proof.
  unfold recommendation. simpl.
  destruct (best_meds scores !! _) as [m|] eqn:Hm.
  - apply elem_of_best_meds. by eapply list_elem_of_lookup_2.
  - apply best_meds_nil. apply lookup_ge_None in Hm.
    destruct (best_meds scores) as [|m ms]; [done|].
    pose proof (floor_random_lt g (length (m :: ms))) as Hlt.
    simpl in *. lia.
Qed.

(** X4: ties are broken by the random source alone: every conclusion whose
    score is the maximum is recommended under some behaviour of the source. *)
Theorem X4_recommendation_any_top scores m :
  top_scorer scores m → ∃ g, (recommendation scores g).1 = Some m.
Proof.
  intros Hm. apply elem_of_best_meds, list_elem_of_lookup in Hm as [k Hk].
  exists (fun _ => k). unfold recommendation, floor_random. simpl.
  pose proof (lookup_lt_Some _ _ _ Hk) as Hlt.
  destruct (Nat.eqb_spec (length (best_meds scores)) 0) as [H0|_]; [lia|].
  by rewrite Nat.mod_small.
Qed.

Lemma X4_recommendation_any_top_witness :
  top_scorer (<[ "vitamins" := 2 ]> (<[ "laxatives" := 2 ]> ∅)) "laxatives"
  ∧ ∃ g, (recommendation (<[ "vitamins" := 2 ]> (<[ "laxatives" := 2 ]> ∅))
                         g).1
         = Some "laxatives".
Proof.
  assert (top_scorer (<[ "vitamins" := 2 ]> (<[ "laxatives" := 2 ]> ∅))
                     "laxatives") as Htop.
  { exists 2. split; [done|]. intros k w Hk.
    repeat (apply lookup_insert_Some in Hk as [[_ <-]|[_ Hk]]; [lia|]).
    by rewrite lookup_empty in Hk. }
  split; [exact Htop|]. exact (X4_recommendation_any_top _ _ Htop).
Defined.


(** ** [showAIBox]: the reason *)

Lemma truthy_Some s : truthy (Some s) = true ↔ s ≠ "".
Proof.
  simpl. rewrite negb_true_iff. split.
  - intros H ->. done.
  - intros H. by apply String.eqb_neq.
Qed.

(** A truthy result of a scan that started without a truthy reason passes
    the test and comes from one of the groups. *)
Lemma scan_groups_sound p groups r s :
  truthy r = false →
  scan_groups p groups r = Some s → s ≠ "" →
  ∃ group, group ∈ groups ∧ s ∈ group ∧ p s = true.
Proof.
  revert r. induction groups as [|group rest IH]; intros r Hr Hs Hne; simpl in Hs.
  - subst r. apply truthy_Some in Hne. congruence.
  - destruct (List.find p group) as [sym|] eqn:Hf.
    + destruct (truthy (Some sym)) eqn:Ht.
      * injection Hs as ->. apply find_some in Hf as [Hin Hp].
        exists group. split; [by left|]. split; [by apply list_elem_of_In|done].
      * destruct (IH (Some sym) Ht Hs Hne) as (g & Hg & Hsg & Hp).
        exists g. split; [by right|done].
    + rewrite Hr in Hs.
      destruct (IH r Hr Hs Hne) as (g & Hg & Hsg & Hp).
      exists g. split; [by right|done].
Qed.

(** A scan finds a reason as soon as one group has a symptom that passes a
    test which the empty string fails. *)
Lemma scan_groups_finds p groups r :
  p "" = false →
  (∃ group sym, group ∈ groups ∧ sym ∈ group ∧ p sym = true) →
  truthy (scan_groups p groups r) = true.
Proof.
  intros Hp (group & sym & Hg & Hs & Hsym). revert r.
  induction groups as [|g rest IH]; intros r; [by apply elem_of_nil in Hg|].
  simpl. destruct (List.find p g) as [sym'|] eqn:Hf.
  - apply find_some in Hf as [_ Hp'].
    assert (truthy (Some sym') = true) as Ht.
    { apply truthy_Some. intros ->. congruence. }
    by rewrite Ht.
  - destruct (truthy r) eqn:Hr; [done|].
    apply elem_of_cons in Hg as [->|Hg]; [|by apply IH].
    apply list_elem_of_In in Hs.
    pose proof (find_none _ _ Hf _ Hs). congruence.
Qed.

Lemma derived_intermediate_spec derived sym :
  derived_intermediate derived sym = true ↔
  sym ∈ intermediateSymptoms ∧ sym ∈ derived.
Proof.
  unfold derived_intermediate.
  by rewrite andb_true_iff, !bool_decide_eq_true.
Qed.

Lemma derived_intermediate_empty derived :
  derived_intermediate derived "" = false.
Proof. unfold derived_intermediate. by vm_compute. Qed.

(** X5: a reason shown in the AI box is a symptom of a group of the first
    final rule for the recommended medicine, and it is either a derived
    intermediate symptom or an observed symptom of the task. *)
Theorem X5_reason_sound task evaluation aiRecommendation s :
  reason_symptom task evaluation aiRecommendation = Some s → s ≠ "" →
  ∃ rule group,
    find_rule (rules task) aiRecommendation = Some rule
    ∧ group ∈ groups rule ∧ s ∈ group
    ∧ ((s ∈ intermediateSymptoms ∧ s ∈ derived evaluation)
       ∨ s ∈ observed task).
Proof.
  unfold reason_symptom. intros Hs Hne.
  destruct (find_rule _ _) as [rule|]; [|done].
  exists rule.
  destruct (truthy (scan_groups _ (groups rule) None)) eqn:Hfirst.
  - destruct (scan_groups_sound _ _ None s eq_refl Hs Hne)
      as (group & Hg & Hsg & Hp).
    exists group. repeat split; try done.
    left. by apply derived_intermediate_spec.
  - destruct (scan_groups_sound _ _ _ s Hfirst Hs Hne)
      as (group & Hg & Hsg & Hp).
    exists group. repeat split; try done.
    right. unfold is_observed in Hp. by apply bool_decide_eq_true in Hp.
Qed.

Lemma X5_reason_sound_witness :
  reason_symptom task1 (evaluateTask task1) (Some "tranquilizers")
  = Some "low blood pressure"
  ∧ ∃ rule group,
      find_rule (rules task1) (Some "tranquilizers") = Some rule
      ∧ group ∈ groups rule ∧ "low blood pressure" ∈ group
      ∧ (("low blood pressure" ∈ intermediateSymptoms
          ∧ "low blood pressure" ∈ derived (evaluateTask task1))
         ∨ "low blood pressure" ∈ observed task1).
Proof.
  assert (reason_symptom task1 (evaluateTask task1) (Some "tranquilizers")
          = Some "low blood pressure") as Hr by (vm_compute; reflexivity).
  split; [exact Hr|].
  apply (X5_reason_sound task1 (evaluateTask task1) (Some "tranquilizers")
           "low blood pressure" Hr).
  discriminate.
Defined.

(** X6: derived intermediate symptoms take precedence: when a group of the
    rule for the recommended medicine has a derived intermediate symptom,
    the reason shown is a derived intermediate symptom, also when observed
    symptoms occur in earlier groups. *)
Theorem X6_reason_prefers_derived task evaluation aiRecommendation rule
    group sym :
  find_rule (rules task) aiRecommendation = Some rule →
  group ∈ groups rule → sym ∈ group →
  sym ∈ intermediateSymptoms → sym ∈ derived evaluation →
  ∃ s, reason_symptom task evaluation aiRecommendation = Some s
       ∧ s ≠ "" ∧ s ∈ intermediateSymptoms ∧ s ∈ derived evaluation.
Proof.
  intros Hrule Hg Hs Hi Hd. unfold reason_symptom. rewrite Hrule.
  assert (truthy (scan_groups (derived_intermediate (derived evaluation))
                              (groups rule) None) = true) as Ht.
  { apply scan_groups_finds; [apply derived_intermediate_empty|].
    exists group, sym. repeat split; try done.
    by apply derived_intermediate_spec. }
  rewrite Ht.
  destruct (scan_groups _ (groups rule) None) as [s|] eqn:Hscan; [|done].
  apply truthy_Some in Ht. exists s. split; [done|]. split; [done|].
  destruct (scan_groups_sound _ _ None s eq_refl Hscan Ht)
    as (g & _ & _ & Hp).
  by apply derived_intermediate_spec.
Qed.

Lemma X6_reason_prefers_derived_witness :
  ∃ s, reason_symptom task1 (evaluateTask task1) (Some "tranquilizers")
       = Some s
       ∧ s ≠ "" ∧ s ∈ intermediateSymptoms
       ∧ s ∈ derived (evaluateTask task1).
Proof.
  apply (X6_reason_prefers_derived task1 (evaluateTask task1)
           (Some "tranquilizers") tranquilizers_rule
           ["low blood pressure"] "low blood pressure").
  - vm_compute. reflexivity.
  - apply (bool_decide_unpack _). by vm_compute.
  - by left.
  - apply (bool_decide_unpack _). by vm_compute.
  - apply (bool_decide_unpack _). by vm_compute.
Defined.


Lemma elem_of_intermediate_results rules x :
  x ∈ intermediate_results rules →
  ∃ rule, rule ∈ rules ∧ intermediate rule = true ∧ result rule = x.
Proof.
  unfold intermediate_results.
  rewrite elem_of_list_to_set, list_elem_of_fmap.
  intros (rule & -> & Hin). apply list_elem_of_In, filter_In in Hin as [Hin Hi].
  exists rule. split; [by apply list_elem_of_In|done].
Qed.

Lemma final_results_distinct_sole rules rule rule' :
  final_results_distinct rules →
  rule ∈ rules → rule' ∈ rules →
  intermediate rule = false → intermediate rule' = false →
  result rule' = result rule → rule' = rule.
Proof.
  unfold final_results_distinct.
  induction rules as [|r rules IH]; intros Hnd Hin Hin' Hi Hi' Hres.
  - by apply elem_of_nil in Hin.
  - simpl in Hnd.
    assert (∀ x, x ∈ rules → intermediate x = false →
                 result x ∈ result <$> List.filter
                   (fun rule => negb (intermediate rule)) rules) as Hmem.
    { intros x Hx Hxi. apply list_elem_of_fmap_2, list_elem_of_In, filter_In.
      split; [by apply list_elem_of_In|by rewrite Hxi]. }
    apply elem_of_cons in Hin as [->|Hin];
      apply elem_of_cons in Hin' as [->|Hin']; try done.
    + rewrite Hi in Hnd. simpl in Hnd. apply NoDup_cons in Hnd as [Hn _].
      exfalso. apply Hn. rewrite <- Hres. by apply Hmem.
    + rewrite Hi' in Hnd. simpl in Hnd. apply NoDup_cons in Hnd as [Hn _].
      exfalso. apply Hn. rewrite Hres. by apply Hmem.
    + apply IH; try done.
      destruct (intermediate r); simpl in Hnd; [done|].
      by apply NoDup_cons in Hnd as [_ ?].
Qed.

Lemma find_rule_winner task m rule :
  final_results_distinct (rules task) →
  winner (observed task) (derived (evaluateTask task)) m (rules task)
  = Some rule →
  find_rule (rules task) (Some m) = Some rule.
Proof.
  intros Hnd Hw. apply winner_Some in Hw as (Hin & Hi & _ & Hres).
  unfold find_rule.
  destruct (List.find _ (rules task)) as [rule'|] eqn:Hf.
  - f_equal. apply find_some in Hf as [Hin' Hp].
    apply andb_true_iff in Hp as [Hi' Hres'].
    apply negb_true_iff in Hi'. apply String.eqb_eq in Hres'.
    apply (final_results_distinct_sole (rules task)); try done.
    + by apply list_elem_of_In.
    + congruence.
  - apply list_elem_of_In in Hin. pose proof (find_none _ _ Hf _ Hin) as Hp.
    simpl in Hp. rewrite Hi, Hres, String.eqb_refl in Hp. done.
Qed.

(** X7: the AI box always names a reason on a well-formed task: when the
    final rules have pairwise distinct results, every result of an
    intermediate rule is listed in [intermediateSymptoms], the empty string
    is not an observed symptom and no final rule is without groups, the
    reason computed for the recommendation of [showAIBox] on the evaluation
    of the task is a non-empty symptom. *)
Theorem X7_reason_exists task (g : Random) m :
  final_results_distinct (rules task) →
  (∀ rule, rule ∈ rules task → intermediate rule = true →
           result rule ∈ intermediateSymptoms) →
  (∀ rule, rule ∈ rules task → intermediate rule = false →
           groups rule ≠ []) →
  "" ∉ observed task →
  (recommendation (finalScores (evaluateTask task)) g).1 = Some m →
  truthy (reason_symptom task (evaluateTask task) (Some m)) = true.
Proof.
  intros Hnd Hinter Hgroups Hobs Hrec.
  assert (top_scorer (finalScores (evaluateTask task)) m) as (v & Hv & _).
  { apply elem_of_best_meds. unfold recommendation in Hrec. simpl in Hrec.
    by eapply list_elem_of_lookup_2. }
  rewrite evaluateTask_finalScores in Hv.
  destruct (winner _ _ m _) as [rule|] eqn:Hw; [|done].
  pose proof (find_rule_winner task m rule Hnd Hw) as Hfind.
  apply winner_Some in Hw as (Hin & Hi & Hsat & Hres).
  unfold reason_symptom. rewrite Hfind.
  destruct (truthy (scan_groups (derived_intermediate _) _ None)) eqn:Hfirst;
    [done|].
  destruct (groups rule) as [|group rest] eqn:Hg; [by destruct (Hgroups rule)|].
  apply satisfied_holds in Hsat.
  destruct (Hsat group) as (sym & Hsym & Hknown); [rewrite Hg; by left|].
  destruct Hknown as [Ho|Hd].
  - apply scan_groups_finds.
    + unfold is_observed. by apply bool_decide_eq_false.
    + exists group, sym. repeat split; [by left|done|].
      unfold is_observed. by apply bool_decide_eq_true.
  - exfalso.
    assert (truthy (scan_groups (derived_intermediate
                                   (derived (evaluateTask task)))
                                (group :: rest) None) = true) as Ht;
      [|congruence].
    apply scan_groups_finds; [apply derived_intermediate_empty|].
    exists group, sym. repeat split; [by left|done|].
    apply derived_intermediate_spec. split; [|done].
    apply deriveClosure_results, elem_of_intermediate_results in Hd
      as (r & Hr & Hri & <-).
    by apply Hinter.
Qed.

Lemma X7_reason_exists_witness :
  (recommendation (finalScores (evaluateTask task1)) (fun _ => 0)).1
  = Some "tranquilizers"
  ∧ truthy (reason_symptom task1 (evaluateTask task1) (Some "tranquilizers"))
    = true.
Proof.
  assert ((recommendation (finalScores (evaluateTask task1)) (fun _ => 0)).1
          = Some "tranquilizers") as Hrec by (vm_compute; reflexivity).
  split; [exact Hrec|].
  apply (X7_reason_exists task1 (fun _ => 0) "tranquilizers"); try exact Hrec.
  - apply (bool_decide_unpack _). by vm_compute.
  - apply (proj1 (Forall_forall
                    (fun rule => intermediate rule = true →
                                 result rule ∈ intermediateSymptoms)
                    (rules task1))).
    apply (bool_decide_unpack _). by vm_compute.
  - apply (proj1 (Forall_forall
                    (fun rule => intermediate rule = false → groups rule ≠ [])
                    (rules task1))).
    apply (bool_decide_unpack _). by vm_compute.
  - apply (bool_decide_unpack _). by vm_compute.
Defined.
